(** * cochainio/orm: bulk insert, identifier hook and transaction guard

    A shallow embedding of [bulk_insert/bulk_insert.go] and [orm.go].
    The relational-mapping library (gorm), the SQL driver, the clock and
    the identifier source are external collaborators: what the code reads
    from them is data of the model ([Field] metadata, the resolved table
    name) or a component of [Collaborator]; what the code asks them to do
    is recorded in a log of calls. *)

From Stdlib Require Import ZArith String Ascii.
From stdpp Require Import base list strings gmap sorting.

Local Open Scope string_scope.
Local Open Scope list_scope.

(** ** Go values, errors and strings *)

Module Go.

(** A Go [error] is its message; [None] is [nil]. *)
Definition error := option string.

(** [strings.Join]. *)
Definition Join (elems : list string) (sep : string) : string :=
  String.concat sep elems.

(** [strings.HasSuffix]:
    [len(s) >= len(suffix) && s[len(s)-len(suffix):] == suffix]. *)
Definition HasSuffix (s suffix : string) : bool :=
  bool_decide (String.length suffix <= String.length s)
  && bool_decide
       (substring (String.length s - String.length suffix) (String.length suffix) s
        = suffix).

(** Byte-wise lexicographic order, the order of [sort.Strings]. *)
Definition strLe (a b : string) : Prop := String.leb a b = true.

(** Number of occurrences of the byte [c] in [s]. *)
Fixpoint countByte (c : ascii) (s : string) : nat :=
  match s with
  | EmptyString => 0
  | String d r => (if bool_decide (c = d) then 1 else 0) + countByte c r
  end.

(** [strings.Split] for a non-empty separator, as the code calls it:
    the text is cut at each occurrence of [sep], found from left to
    right, an occurrence starting only after the previous one has ended.
    [skip] counts the bytes of a found separator still to pass over and
    [cur] is the piece read so far. *)
Fixpoint splitFrom (sep : string) (skip : nat) (cur s : string) : list string :=
  match s with
  | EmptyString => [cur]
  | String c r =>
      match skip with
      | S k => splitFrom sep k cur r
      | 0 =>
          if String.prefix sep s
          then cur :: splitFrom sep (String.length sep - 1) "" r
          else splitFrom sep 0 (cur +:+ String c "") r
      end
  end.

Definition Split (s sep : string) : list string := splitFrom sep 0 "" s.

End Go.

(** ** The collaborator's view of a record (gorm) *)

Module gorm.

(** A bound value, an [interface{}] that ends up as a SQL parameter. *)
Inductive Value :=
| VNil
| VInt (z : Z)
| VStr (s : string)
| VBool (b : bool)
| VTime (t : Z).

(** [gorm.Field] with the part of [gorm.StructField] the code reads.
    [Name] stands for both [field.Name] and [field.Struct.Name], which
    gorm sets to the same Go field name. [HasRelationship] is
    [field.StructField.Relationship != nil]; [FieldValue] is
    [field.Field.Interface()]. *)
Record Field := mkField {
  Name : string;
  DBName : string;
  IsPrimaryKey : bool;
  IsIgnored : bool;
  IsBlank : bool;
  HasRelationship : bool;
  HasDefaultValue : bool;
  TagSettings : gmap string string;
  FieldValue : Value
}.

(** [field.TagSettingsGet key]. *)
Definition TagSettingsGet (field : Field) (key : string) : option string :=
  TagSettings field !! key.

(** An element handed to the engine. Only a value of kind [Struct] has
    fields; the scope resolves its table name and its [Fields()]. *)
Inductive Object :=
| Struct (table : string) (fields : list Field)
| PtrTo (table : string) (fields : list Field)
| Prim (v : Value).

(** The [objects interface{}] argument of [BulkInsert]. *)
Inductive Objects :=
| SliceOf (elems : list Object)
| NotSlice (o : Object).

(** A parameterized statement: [scope.SQL] and [scope.SQLVars]. *)
Record Stmt := mkStmt {
  SQL : string;
  SQLVars : list Value
}.

(** What the code consumes from outside: the clock, the naming strategy,
    the dialect's quoting, and the error (if any) with which the database
    answers a statement given the statements executed before it. *)
Record Collaborator := mkCollaborator {
  Now : nat -> Z;
  ToColumnName : string -> string;
  QuotedTableName : string -> string;
  Exec : list Stmt -> Stmt -> Go.error
}.

(** A non-nil [error] as the code tells errors apart: the sentinel
    [gorm.ErrRecordNotFound], compared by identity; a value of type
    [gorm.Errors], a slice of errors, some of which may be nil; any
    other error, with its message. *)
#[warnings="-register-all"]
Inductive ErrorValue :=
| ErrRecordNotFound
| Errors (errs : list (option ErrorValue))
| OtherError (msg : string).

End gorm.

(** ** bulk_insert/bulk_insert.go *)

Module bulk_insert.
Import gorm.

(** A call that returns [(T, error)]. *)
Inductive Result (A : Type) :=
| Ok (a : A)
| Err (msg : string).
Arguments Ok {A} a.
Arguments Err {A} msg.

(** The session the engine works on: how many times the clock was read
    and the statements handed to [db.Exec], oldest first. *)
Record World := mkWorld {
  ticks : nat;
  executed : list Stmt
}.

#[global] Instance strLe_dec : RelDecision Go.strLe.
Proof. intros a b. unfold Go.strLe. apply _. Defined.

(** Modelled from the spec: [containString] is called by
    [extractMapValue] but its file is not among the sources. The spec
    drops a field when "its name is in [excludedColumns]". *)
Fixpoint containString (s : list string) (value : string) : bool :=
  match s with
  | [] => false
  | v :: rest => if bool_decide (v = value) then true else containString rest value
  end.

(** Modelled from the spec: [sortedKeys] is called by [insertObjSet] but
    its file is not among the sources. The spec derives the column order
    "by sorting its keys lexicographically". *)
Definition sortedKeys (val : gmap string Value) : list string :=
  merge_sort Go.strLe (map_to_list val).*1.

(** Modelled from the spec: [splitObjects] is called by [BulkInsert] but
    its file is not among the sources. The spec says: "partition
    [records] into contiguous chunks of at most [chunkSize]". The
    recursion is on the number of records still to place, which bounds
    the number of chunks for a positive size. *)
Fixpoint splitObjects_from (fuel : nat) (objArr : list Object) (size : nat)
  : list (list Object) :=
  match fuel with
  | 0 => []
  | S fuel' =>
      match objArr with
      | [] => []
      | _ :: _ => take size objArr :: splitObjects_from fuel' (drop size objArr) size
      end
  end.

Definition splitObjects (objArr : list Object) (size : Z) : list (list Object) :=
  splitObjects_from (length objArr) objArr (Z.to_nat size).

Record Builder := mkBuilder {
  chunkSize : Z;
  replace : bool;
  excludeColumns : list string
}.

Definition BuilderOpt := Builder -> Builder.

Definition ChunkSizeOpt (c : Z) : BuilderOpt :=
  fun b => mkBuilder c (replace b) (excludeColumns b).

Definition ReplaceOpt (r : bool) : BuilderOpt :=
  fun b => mkBuilder (chunkSize b) r (excludeColumns b).

Definition ExcludeColumnsOpt (cols : list string) : BuilderOpt :=
  fun b => mkBuilder (chunkSize b) (replace b) cols.

Definition NewBuilder (opts : list BuilderOpt) : Builder :=
  fold_left (fun b opt => opt b) opts (mkBuilder 2000 false []).

Section engine.
Variable E : Collaborator.

(** The guard of line 155: the field is a direct column to insert. *)
Definition isInsertColumn (excludeColumns : list string) (field : Field) : bool :=
  let hasForeignKey := bool_decide (is_Some (TagSettingsGet field "FOREIGNKEY")) in
  negb (containString excludeColumns (Name field))
  && negb (HasRelationship field)
  && negb hasForeignKey
  && negb (IsIgnored field)
  && negb (bool_decide (DBName field = "id") && IsPrimaryKey field).

(** One round of the loop of [extractMapValue]; [time.Now()] reads the
    clock and moves it on. *)
Definition extractField (excludeColumns : list string)
    (acc : gmap string Value * nat) (field : Field) : gmap string Value * nat :=
  let '(attrs, t) := acc in
  if isInsertColumn excludeColumns field then
    if bool_decide (Name field = "CreatedAt") || bool_decide (Name field = "UpdatedAt") then
      (<[DBName field := VTime (Now E t)]> attrs, S t)
    else if HasDefaultValue field && IsBlank field then
      match TagSettingsGet field "DEFAULT" with
      | Some val => (<[DBName field := VStr val]> attrs, t)
      | None => (<[DBName field := FieldValue field]> attrs, t)
      end
    else (<[DBName field := FieldValue field]> attrs, t)
  else acc.

Definition extractMapValue (value : Object) (excludeColumns : list string) (t : nat)
  : Result (gmap string Value) * nat :=
  match value with
  | Struct _ fields =>
      let '(attrs, t') := fold_left (extractField excludeColumns) fields (∅, t) in
      (Ok attrs, t')
  | _ => (Err "value must be kind of Struct", t)
  end.

(** [scope.AddToVars objAttrs[key]] for each [key] of [sortedKeys objAttrs]:
    the values the row's scope collects, [AddToVars] appending its
    argument to [scope.SQLVars]. A missing key reads as [nil]. *)
Definition rowVars (objAttrs : gmap string Value) : list Value :=
  (fun key => default VNil (objAttrs !! key)) <$> sortedKeys objAttrs.

(** The text of one row: a "?" per key, joined and parenthesized. *)
Definition valueQuery (objAttrs : gmap string Value) : string :=
  "(" +:+ Go.Join ((fun _ => "?") <$> sortedKeys objAttrs) ", " +:+ ")".

(** The loop of lines 101 to 126 over the objects still to visit, with
    the placeholders and [mainScope.SQLVars] gathered so far. *)
Fixpoint insertRows (objects : list Object) (excludeColumns : list string)
    (attrSize : nat) (placeholders : list string) (vars : list Value) (t : nat)
  : Result (list string * list Value) * nat :=
  match objects with
  | [] => (Ok (placeholders, vars), t)
  | obj :: rest =>
      match extractMapValue obj excludeColumns t with
      | (Err e, t') => (Err e, t')
      | (Ok objAttrs, t') =>
          if bool_decide (size objAttrs ≠ attrSize)
          then (Err "attribute sizes are inconsistent", t')
          else insertRows rest excludeColumns attrSize
                 (placeholders ++ [valueQuery objAttrs])
                 (vars ++ rowVars objAttrs) t'
      end
  end.

(** The table [mainScope] resolves for [objects[0]]. *)
Definition tableOf (obj : Object) : string :=
  match obj with
  | Struct table _ => table
  | PtrTo table _ => table
  | Prim _ => ""
  end.

(** The text handed to [mainScope.Raw], which keeps it as
    [mainScope.SQL]. *)
Definition statementText (replace : bool) (table : string)
    (dbColumns placeholders : list string) : string :=
  (if replace then "REPLACE" else "INSERT") +:+ " INTO " +:+ QuotedTableName E table
  +:+ " (" +:+ Go.Join dbColumns ", " +:+ ") VALUES " +:+ Go.Join placeholders ", ".

Definition insertObjSet (db : World) (objects : list Object) (replace : bool)
    (excludeColumns : list string) : Go.error * World :=
  match objects with
  | [] => (None, db)
  | first :: _ =>
      match extractMapValue first excludeColumns (ticks db) with
      | (Err e, t) => (Some e, mkWorld t (executed db))
      | (Ok firstAttrs, t) =>
          let attrSize := size firstAttrs in
          let dbColumns := ToColumnName E <$> sortedKeys firstAttrs in
          match insertRows objects excludeColumns attrSize [] [] t with
          | (Err e, t') => (Some e, mkWorld t' (executed db))
          | (Ok (placeholders, vars), t') =>
              let stmt := mkStmt (statementText replace (tableOf first) dbColumns placeholders) vars in
              (Exec E (executed db) stmt, mkWorld t' (executed db ++ [stmt]))
          end
      end
  end.

(** The loop of lines 70 to 75. *)
Fixpoint insertChunks (db : World) (chunks : list (list Object)) (replace : bool)
    (excludeColumns : list string) : Go.error * World :=
  match chunks with
  | [] => (None, db)
  | objSet :: rest =>
      match insertObjSet db objSet replace excludeColumns with
      | (Some err, db') => (Some err, db')
      | (None, db') => insertChunks db' rest replace excludeColumns
      end
  end.

Definition BulkInsert (db : World) (objects : Objects) (chunkSize : Z) (replace : bool)
    (excludeColumns : list string) : Go.error * World :=
  match objects with
  | NotSlice _ => (Some "objects must be a slice", db)
  | SliceOf objectInterfaces =>
      insertChunks db (splitObjects objectInterfaces chunkSize) replace excludeColumns
  end.

Definition Builder_Exec (b : Builder) (db : World) (objects : Objects) : Go.error * World :=
  BulkInsert db objects (chunkSize b) (replace b) (excludeColumns b).

End engine.
End bulk_insert.

(** ** orm.go *)

Module orm.
Import gorm.

(** What a [TX] asks of its session. *)
Inductive SessionCall :=
| CallBegin
| CallCommit
| CallRollback.

#[global] Instance SessionCall_eq_dec : EqDecision SessionCall.
Proof. solve_decision. Defined.

(** The embedded [*gorm.DB]: its [Error] field and the calls issued on
    it, oldest first. *)
Record Session := mkSession {
  Error : Go.error;
  issued : list SessionCall
}.

(** The collaborator decides the [Error] field a call leaves behind. *)
Definition Driver := Session -> SessionCall -> Go.error.

Definition issue (drv : Driver) (c : SessionCall) (s : Session) : Session :=
  mkSession (drv s c) (issued s ++ [c]).

Record TX := mkTX {
  DB : Session;
  committed : bool
}.

(** A call either returns or panics. *)
Inductive Outcome :=
| Returns (err : Go.error)
| Panics (msg : string).

Section guard.
Variable drv : Driver.

Definition Begin (db : Session) : TX :=
  mkTX (issue drv CallBegin db) false.

Definition End (tx : TX) : TX :=
  if negb (committed tx)
  then mkTX (issue drv CallRollback (DB tx)) (committed tx)
  else tx.

(** [noPanic] is the variadic argument. *)
Definition Commit (tx : TX) (noPanic : list bool) : Outcome * TX :=
  let db := issue drv CallCommit (DB tx) in
  match Error db with
  | Some e =>
      if bool_decide (0 < length noPanic) && default false (head noPanic)
      then (Returns (Some e), mkTX db (committed tx))
      else (Panics e, mkTX db (committed tx))
  | None => (Returns None, mkTX db true)
  end.

End guard.

(** How often [tx.Rollback()] was issued on a session. *)
Definition rollbacks (s : Session) : nat :=
  length (filter (fun c => c = CallRollback) (issued s)).

(** The scope the create callback receives. *)
Record Scope := mkScope {
  TableName : string;
  PrimaryField : option Field;
  HasColumn : string -> bool
}.

(** What the callback asks of the scope. *)
Inductive ScopeCall :=
| SetColumn (column : string) (value : Value).

(** The callback of lines 137 to 148; [xidNew] is [xid.New().String()]
    and [now] is [gorm.NowFunc()]. *)
Definition beforeCreateCallback (xidNew : string) (now : Z) (scope : Scope)
  : list ScopeCall :=
  if negb (Go.HasSuffix (TableName scope) "deleted") then
    match PrimaryField scope with
    | Some pf =>
        if (bool_decide (Name pf = "ID") || bool_decide (DBName pf = "ID")) && IsBlank pf
        then [SetColumn "ID" (VStr xidNew)]
        else []
    | None => []
    end
  else
    if HasColumn scope "At" then [SetColumn "At" (VTime now)] else [].

(** The callback of the earlier revisions ([orm.go] lines 25 to 35 and
    the unnamed source, lines 58 to 68): it looks at the presence of a
    column ID only. *)
Definition beforeCreateCallback_presence (xidNew : string) (now : Z) (scope : Scope)
  : list ScopeCall :=
  if negb (Go.HasSuffix (TableName scope) "deleted") then
    if HasColumn scope "ID" then [SetColumn "ID" (VStr xidNew)] else []
  else
    if HasColumn scope "At" then [SetColumn "At" (VTime now)] else [].

(** [err == gorm.ErrRecordNotFound]. *)
Definition isErrRecordNotFound (err : option ErrorValue) : bool :=
  match err with
  | Some ErrRecordNotFound => true
  | _ => false
  end.

(** The loop of lines 202 to 206 over the elements still to visit. *)
Fixpoint anyRecordNotFound (errors : list (option ErrorValue)) : bool :=
  match errors with
  | [] => false
  | err :: rest => if isErrRecordNotFound err then true else anyRecordNotFound rest
  end.

Definition IsRecordNotFound (err : option ErrorValue) : bool :=
  let found :=
    match err with
    | Some (Errors errors) => anyRecordNotFound errors
    | _ => false
    end in
  if found then true else isErrRecordNotFound err.

(** [DB.BulkCreate] and [TX.BulkCreate], which have the same body. *)
Definition BulkCreate (E : Collaborator) (db : bulk_insert.World)
    (objects : Objects) (opts : list bulk_insert.BuilderOpt)
  : Go.error * bulk_insert.World :=
  bulk_insert.Builder_Exec E (bulk_insert.NewBuilder opts) db objects.

(** What [Instantiate] asks of gorm. *)
Inductive GormCall :=
| CallOpen (dialect source : string)
| CallSingularTable (enable : bool)
| CallLogMode (enable : bool)
| CallAddNamingStrategy
| CallRegisterBeforeCreate (before name : string).

Inductive Panic :=
| PanicMessage (msg : string)
| PanicIndexOutOfRange (index len : nat).

(** The package state: [Singleton], here the dialect and source it was
    opened with, and the calls made on gorm. *)
Record Process := mkProcess {
  Singleton : option (string * string);
  gormCalls : list GormCall
}.

(** [Instantiate] of lines 111 to 155; [open] is the error, if any, with
    which [gorm.Open] answers. The result is the panic, if any. *)
Definition Instantiate (open : string -> string -> Go.error) (p : Process)
    (dsn : string) (enableLog : bool) : option Panic * Process :=
  match Singleton p with
  | Some _ => (Some (PanicMessage "orm has been instantiated"), p)
  | None =>
      let args := Go.Split dsn "://" in
      match args !! 0 with
      | None => (Some (PanicIndexOutOfRange 0 (length args)), p)
      | Some dialect =>
          match args !! 1 with
          | None => (Some (PanicIndexOutOfRange 1 (length args)), p)
          | Some source =>
              let opened := gormCalls p ++ [CallOpen dialect source] in
              match open dialect source with
              | Some err => (Some (PanicMessage err), mkProcess None opened)
              | None =>
                  (None,
                   mkProcess (Some (dialect, source))
                     (opened ++ [CallSingularTable true; CallLogMode enableLog;
                                 CallAddNamingStrategy;
                                 CallRegisterBeforeCreate "gorm:before_create"
                                   "before_create_callback"]))
              end
          end
      end
  end.

End orm.

(** * Properties of the transaction guard and of the create callback *)

Module orm_props.
Import gorm orm.

(** A driver that never reports an error, and one whose commit fails. *)
Definition quietDriver : Driver := fun _ _ => None.

Definition failingCommit : Driver :=
  fun s c => match c with CallCommit => Some "commit failed" | _ => Error s end.

Definition freshSession : Session := mkSession None [].

Lemma rollbacks_issue drv c s :
  rollbacks (issue drv c s)
  = rollbacks s + (if decide (c = CallRollback) then 1 else 0).
Proof.
  unfold rollbacks, issue; simpl.
  rewrite filter_app, length_app. f_equal.
  rewrite filter_cons, filter_nil.
  destruct (decide (c = CallRollback)); reflexivity.
Qed.

Lemma End_open drv tx :
  committed tx = false ->
  End drv tx = mkTX (issue drv CallRollback (DB tx)) false.
Proof. intros H. unfold End. rewrite H. reflexivity. Qed.

Lemma End_committed drv tx : committed tx = true -> End drv tx = tx.
Proof. intros H. unfold End. rewrite H. reflexivity. Qed.

Lemma rollbacks_End_open drv tx :
  committed tx = false ->
  rollbacks (DB (End drv tx)) = S (rollbacks (DB tx)).
Proof.
  intros H. rewrite End_open by assumption. simpl.
  rewrite rollbacks_issue. destruct (decide _); [lia | congruence].
Qed.

Lemma iter_End_open drv tx n :
  committed tx = false ->
  committed (Nat.iter n (End drv) tx) = false
  /\ rollbacks (DB (Nat.iter n (End drv) tx)) = n + rollbacks (DB tx).
Proof.
  intros H. induction n as [|n [IHc IHr]]; simpl.
  - split; [assumption | reflexivity].
  - split.
    + rewrite End_open by assumption. reflexivity.
    + rewrite rollbacks_End_open by assumption. rewrite IHr. reflexivity.
Qed.

(** Every way [Commit] can end, by the error the commit leaves behind. *)
Lemma Commit_cases drv tx noPanic :
  let db := issue drv CallCommit (DB tx) in
  match Error db with
  | None => Commit drv tx noPanic = (Returns None, mkTX db true)
  | Some e =>
      match noPanic with
      | true :: _ => Commit drv tx noPanic = (Returns (Some e), mkTX db (committed tx))
      | _ => Commit drv tx noPanic = (Panics e, mkTX db (committed tx))
      end
  end.
Proof.
  unfold Commit; simpl.
  destruct (drv (DB tx) CallCommit) as [e|]; [|reflexivity].
  destruct noPanic as [|[|] rest]; reflexivity.
Qed.

Lemma Commit_returns_nil_inv drv tx noPanic tx' :
  Commit drv tx noPanic = (Returns None, tx') ->
  tx' = mkTX (issue drv CallCommit (DB tx)) true.
Proof.
  pose proof (Commit_cases drv tx noPanic) as Hc. cbv zeta in Hc.
  destruct (Error (issue drv CallCommit (DB tx))) as [e|].
  - destruct noPanic as [|[|] rest]; rewrite Hc; congruence.
  - rewrite Hc. congruence.
Qed.

Lemma Commit_returns_err_inv drv tx noPanic e tx' :
  Commit drv tx noPanic = (Returns (Some e), tx') ->
  tx' = mkTX (issue drv CallCommit (DB tx)) (committed tx).
Proof.
  pose proof (Commit_cases drv tx noPanic) as Hc. cbv zeta in Hc.
  destruct (Error (issue drv CallCommit (DB tx))) as [e'|].
  - destruct noPanic as [|[|] rest]; rewrite Hc; congruence.
  - rewrite Hc. congruence.
Qed.

(** C6, contradicted as stated: the guard keeps no record of a release,
    so on a guard begun and never committed the second [End] issues a
    second rollback and is not a no-op. *)
Lemma second_End_rolls_back_again :
  let tx := Begin quietDriver freshSession in
  rollbacks (DB (End quietDriver tx)) = 1
  /\ rollbacks (DB (End quietDriver (End quietDriver tx))) = 2
  /\ End quietDriver (End quietDriver tx) <> End quietDriver tx.
Proof. repeat split; try reflexivity. discriminate. Qed.

(** C6, as the code has it: on a guard whose [Commit] has not succeeded
    every call of [End] issues exactly one rollback, so [n] calls issue
    [n]; this also holds after a [Commit] that returned an error; and
    after a successful [Commit], [End] changes nothing and issues no
    rollback. *)
Theorem End_rolls_back_unless_committed drv tx :
  (committed tx = false ->
     rollbacks (DB (End drv tx)) = S (rollbacks (DB tx))
     /\ forall n, rollbacks (DB (Nat.iter n (End drv) tx)) = n + rollbacks (DB tx))
  /\ (forall db, rollbacks (DB (End drv (Begin drv db))) = S (rollbacks db))
  /\ (forall noPanic e tx',
        committed tx = false ->
        Commit drv tx noPanic = (Returns (Some e), tx') ->
        rollbacks (DB (End drv tx')) = S (rollbacks (DB tx)))
  /\ (forall noPanic tx',
        Commit drv tx noPanic = (Returns None, tx') ->
        End drv tx' = tx' /\ rollbacks (DB tx') = rollbacks (DB tx)).
Proof.
  repeat split.
  - apply rollbacks_End_open; assumption.
  - intros n. apply iter_End_open; assumption.
  - intros db. rewrite rollbacks_End_open by reflexivity.
    unfold Begin; simpl. rewrite rollbacks_issue.
    destruct (decide _); [discriminate | lia].
  - intros noPanic e tx' Hopen HC.
    apply Commit_returns_err_inv in HC. subst tx'.
    rewrite rollbacks_End_open by (simpl; assumption). simpl.
    rewrite rollbacks_issue. destruct (decide _); [discriminate | lia].
  - apply Commit_returns_nil_inv in H. subst tx'.
    apply End_committed. reflexivity.
  - apply Commit_returns_nil_inv in H. subst tx'. simpl.
    rewrite rollbacks_issue. destruct (decide _); [discriminate | lia].
Qed.

Lemma End_rolls_back_unless_committed_witness :
  let tx := Begin quietDriver freshSession in
  let bad := Begin failingCommit freshSession in
  rollbacks (DB (End quietDriver tx)) = 1
  /\ rollbacks (DB (Nat.iter 3 (End quietDriver) tx)) = 3
  /\ rollbacks (DB (End failingCommit (snd (Commit failingCommit bad [true])))) = 1
  /\ End quietDriver (snd (Commit quietDriver tx [])) = snd (Commit quietDriver tx []).
Proof.
  intros tx bad.
  destruct (End_rolls_back_unless_committed quietDriver tx) as (H1 & _ & _ & H4).
  destruct (End_rolls_back_unless_committed failingCommit bad) as (_ & _ & H3 & _).
  destruct (H1 eq_refl) as [Ha Hb].
  split; [exact Ha|].
  split; [exact (Hb 3)|].
  split; [exact (H3 [true] "commit failed" _ eq_refl eq_refl)|].
  exact (proj1 (H4 [] _ eq_refl)).
Defined.

(** C7: [Commit(true)] on a session whose error field is set once the
    commit was issued returns that error and does not panic; the guard's
    [committed] flag is as before and no rollback was issued by [Commit],
    so a guard that was open is still open and its [End] rolls back. When
    the session has no error, [Commit] (whatever [noPanic] is) returns
    nil and the guard is committed. *)
Theorem Commit_noPanic_returns_error drv tx :
  (forall e rest,
     Error (issue drv CallCommit (DB tx)) = Some e ->
     exists tx',
       Commit drv tx (true :: rest) = (Returns (Some e), tx')
       /\ committed tx' = committed tx
       /\ rollbacks (DB tx') = rollbacks (DB tx)
       /\ (committed tx = false ->
           committed (End drv tx') = false
           /\ rollbacks (DB (End drv tx')) = S (rollbacks (DB tx))))
  /\ (forall noPanic,
        Error (issue drv CallCommit (DB tx)) = None ->
        exists tx',
          Commit drv tx noPanic = (Returns None, tx') /\ committed tx' = true).
Proof.
  split.
  - intros e rest He.
    pose proof (Commit_cases drv tx (true :: rest)) as Hc. cbv zeta in Hc.
    rewrite He in Hc.
    exists (mkTX (issue drv CallCommit (DB tx)) (committed tx)).
    split; [exact Hc|]. split; [reflexivity|]. split.
    + simpl. rewrite rollbacks_issue. destruct (decide _); [discriminate | lia].
    + intros Hopen. rewrite End_open by exact Hopen. split; [reflexivity|].
      simpl. rewrite !rollbacks_issue.
      repeat destruct (decide _); try discriminate; try congruence; lia.
  - intros noPanic He.
    pose proof (Commit_cases drv tx noPanic) as Hc. cbv zeta in Hc.
    rewrite He in Hc.
    exists (mkTX (issue drv CallCommit (DB tx)) true).
    split; [exact Hc | reflexivity].
Qed.

Lemma Commit_noPanic_returns_error_witness :
  let bad := Begin failingCommit freshSession in
  let good := Begin quietDriver freshSession in
  (exists tx',
     Commit failingCommit bad [true] = (Returns (Some "commit failed"), tx')
     /\ committed tx' = false
     /\ rollbacks (DB (End failingCommit tx')) = 1)
  /\ (exists tx', Commit quietDriver good [] = (Returns None, tx') /\ committed tx' = true).
Proof.
  intros bad good.
  destruct (Commit_noPanic_returns_error failingCommit bad) as [H1 _].
  destruct (Commit_noPanic_returns_error quietDriver good) as [_ H2].
  destruct (H1 "commit failed" [] eq_refl) as (tx' & Hc & Hk & _ & Hend).
  split.
  - exists tx'. split; [exact Hc|]. split; [exact Hk|].
    exact (proj2 (Hend eq_refl)).
  - exact (H2 [] eq_refl).
Defined.

(** ** The create callback *)

Lemma substring_whole (s : string) : substring 0 (String.length s) s = s.
Proof. induction s as [|c s IH]; simpl; [reflexivity | rewrite IH; reflexivity]. Qed.

Lemma substring_after (p s : string) :
  substring (String.length p) (String.length s) (p +:+ s) = s.
Proof. induction p as [|c p IH]; simpl; [apply substring_whole | exact IH]. Qed.

Lemma substring_split (s : string) : forall n,
  n <= String.length s ->
  s = substring 0 n s +:+ substring n (String.length s - n) s.
Proof.
  induction s as [|c s IH]; intros [|n] Hn; simpl in *; try lia.
  - reflexivity.
  - rewrite substring_whole. reflexivity.
  - change (String c s = String c (substring 0 n s +:+ substring n (String.length s - n) s)).
    f_equal. apply IH. lia.
Qed.

Lemma length_append (p s : string) :
  String.length (p +:+ s) = String.length p + String.length s.
Proof. induction p as [|c p IH]; simpl; [reflexivity | rewrite IH; reflexivity]. Qed.

(** [HasSuffix] holds exactly of the strings that end with the suffix. *)
Lemma HasSuffix_spec (s suffix : string) :
  Go.HasSuffix s suffix = true <-> exists p, s = p +:+ suffix.
Proof.
  unfold Go.HasSuffix. rewrite andb_true_iff, !bool_decide_eq_true. split.
  - intros [Hlen Hsub].
    exists (substring 0 (String.length s - String.length suffix) s).
    etransitivity;
      [apply (substring_split s (String.length s - String.length suffix)); lia|].
    f_equal.
    replace (String.length s - (String.length s - String.length suffix))
      with (String.length suffix) by lia.
    exact Hsub.
  - intros [p ->]. rewrite length_append. split; [lia|].
    replace (String.length p + String.length suffix - String.length suffix)
      with (String.length p) by lia.
    apply substring_after.
Qed.

Example HasSuffix_samples :
  Go.HasSuffix "user_deleted" "deleted" = true
  /\ Go.HasSuffix "deleted_user" "deleted" = false
  /\ Go.HasSuffix "ted" "deleted" = false.
Proof. repeat split. Qed.

(** On a soft-delete table the callback never touches ID: it stamps At
    when the scope has that column. *)
Lemma beforeCreate_deleted_table xidNew now scope :
  Go.HasSuffix (TableName scope) "deleted" = true ->
  beforeCreateCallback xidNew now scope
  = if HasColumn scope "At" then [SetColumn "At" (VTime now)] else [].
Proof. intros H. unfold beforeCreateCallback. rewrite H. reflexivity. Qed.

(** A record whose primary key is a blank field called [UUID]. *)
Definition uuidKey : Field :=
  mkField "UUID" "UUID" true false true false false ∅ (VStr "").

Definition uuidScope : Scope := mkScope "user" (Some uuidKey) (fun _ => false).

(** C8, contradicted as stated: the record declares a primary-key field
    and the field is blank, the table is not a soft-delete table, and yet
    the callback assigns nothing, because the field is not called ID. *)
Lemma blank_primary_key_not_named_ID_gets_no_identifier :
  Go.HasSuffix (TableName uuidScope) "deleted" = false
  /\ PrimaryField uuidScope = Some uuidKey
  /\ IsPrimaryKey uuidKey = true
  /\ IsBlank uuidKey = true
  /\ beforeCreateCallback "9m4e2mr0ui3e8a215n4g" 0 uuidScope = [].
Proof. repeat split. Qed.

Lemma blank_ID_test pf :
  (bool_decide (Name pf = "ID") || bool_decide (DBName pf = "ID")) && IsBlank pf = true
  <-> (Name pf = "ID" \/ DBName pf = "ID") /\ IsBlank pf = true.
Proof. rewrite andb_true_iff, orb_true_iff, !bool_decide_eq_true. tauto. Qed.

(** C8, as the code has it: for a table whose name does not end with
    "deleted", the callback sets column ID to the fresh identifier if and
    only if the scope has a primary field that is called ID (by field
    name or by column name) and is blank; in every other case it asks
    nothing of the scope, in particular when the primary key is already
    set. *)
Theorem beforeCreate_assigns_blank_ID xidNew now scope :
  Go.HasSuffix (TableName scope) "deleted" = false ->
  (beforeCreateCallback xidNew now scope = [SetColumn "ID" (VStr xidNew)]
   <-> exists pf, PrimaryField scope = Some pf
                  /\ (Name pf = "ID" \/ DBName pf = "ID")
                  /\ IsBlank pf = true)
  /\ (beforeCreateCallback xidNew now scope = [SetColumn "ID" (VStr xidNew)]
      \/ beforeCreateCallback xidNew now scope = [])
  /\ (forall pf, PrimaryField scope = Some pf -> IsBlank pf = false ->
                 beforeCreateCallback xidNew now scope = []).
Proof.
  intros Hlive. unfold beforeCreateCallback. rewrite Hlive. simpl.
  destruct (PrimaryField scope) as [pf|].
  - pose proof (blank_ID_test pf) as Htest.
    destruct ((bool_decide (Name pf = "ID") || bool_decide (DBName pf = "ID"))
              && IsBlank pf) eqn:Hc.
    + split; [|split].
      * split; [intros _; exists pf; split; [reflexivity | apply Htest; reflexivity]
               | reflexivity].
      * left; reflexivity.
      * intros pf' [= <-] Hb. apply proj1 in Htest.
        destruct (Htest eq_refl) as [_ Hblank]. congruence.
    + split; [|split].
      * split; [discriminate|].
        intros (pf' & [= <-] & Hrest). apply Htest in Hrest. discriminate.
      * right; reflexivity.
      * reflexivity.
  - split; [split; [discriminate | intros (pf & Hpf & _); discriminate]|].
    split; [right; reflexivity | intros pf Hpf; discriminate].
Qed.

Lemma beforeCreate_assigns_blank_ID_witness :
  let pf := mkField "ID" "ID" true false true false false ∅ (VStr "") in
  beforeCreateCallback "9m4e2mr0ui3e8a215n4g" 0 (mkScope "user" (Some pf) (fun _ => false))
  = [SetColumn "ID" (VStr "9m4e2mr0ui3e8a215n4g")].
Proof.
  intros pf.
  apply (proj1 (beforeCreate_assigns_blank_ID "9m4e2mr0ui3e8a215n4g" 0
                  (mkScope "user" (Some pf) (fun _ => false)) eq_refl)).
  exists pf. split; [reflexivity|]. split; [left; reflexivity | reflexivity].
Defined.

End orm_props.

(** * Properties of the bulk-insert engine *)

Module bulk_insert_props.
Import gorm bulk_insert.

(** ** The order of [sort.Strings] *)

Lemma compare_le_trans s1 : forall s2 s3,
  String.compare s1 s2 <> Gt -> String.compare s2 s3 <> Gt ->
  String.compare s1 s3 <> Gt.
Proof.
  induction s1 as [|a s1 IH]; intros [|b s2] [|c s3]; simpl; try congruence.
  unfold Ascii.compare.
  destruct (N.compare_spec (N_of_ascii a) (N_of_ascii b)) as [Hab|Hab|Hab];
    destruct (N.compare_spec (N_of_ascii b) (N_of_ascii c)) as [Hbc|Hbc|Hbc];
    destruct (N.compare_spec (N_of_ascii a) (N_of_ascii c)) as [Hac|Hac|Hac];
    try congruence; try lia.
  apply IH.
Qed.

#[global] Instance strLe_trans : Transitive Go.strLe.
Proof.
  intros s1 s2 s3. unfold Go.strLe, String.leb. intros H12 H23.
  pose proof (compare_le_trans s1 s2 s3) as H.
  destruct (String.compare s1 s2); try discriminate;
    destruct (String.compare s2 s3); try discriminate;
    destruct (String.compare s1 s3); try reflexivity;
    exfalso; apply H; congruence.
Qed.

#[global] Instance strLe_total : Total Go.strLe.
Proof. intros s1 s2. apply String.leb_total. Qed.

#[global] Instance strLe_antisym : AntiSymm (=) Go.strLe.
Proof. intros s1 s2. apply String.leb_antisym. Qed.

(** ** [sortedKeys] *)

Lemma sortedKeys_Sorted (m : gmap string Value) : Sorted Go.strLe (sortedKeys m).
Proof. apply Sorted_merge_sort, _. Qed.

Lemma sortedKeys_Permutation (m : gmap string Value) :
  sortedKeys m ≡ₚ (map_to_list m).*1.
Proof. apply merge_sort_Permutation. Qed.

Lemma sortedKeys_NoDup (m : gmap string Value) : NoDup (sortedKeys m).
Proof. rewrite sortedKeys_Permutation. apply NoDup_fst_map_to_list. Qed.

Lemma elem_of_sortedKeys (m : gmap string Value) k :
  k ∈ sortedKeys m <-> k ∈ dom m.
Proof.
  rewrite sortedKeys_Permutation, elem_of_dom, list_elem_of_fmap. split.
  - intros [[k' v] [-> Hin]]. apply elem_of_map_to_list in Hin. eauto.
  - intros [v Hv]. exists (k, v). split; [reflexivity|].
    apply elem_of_map_to_list. exact Hv.
Qed.

Lemma length_sortedKeys (m : gmap string Value) : length (sortedKeys m) = size m.
Proof.
  rewrite sortedKeys_Permutation, length_fmap. apply length_map_to_list.
Qed.

(** The key order is a function of the key set alone. *)
Lemma sortedKeys_dom (m1 m2 : gmap string Value) :
  dom m1 = dom m2 -> sortedKeys m1 = sortedKeys m2.
Proof.
  intros Hdom. apply (Sorted_unique Go.strLe); try apply sortedKeys_Sorted.
  apply NoDup_Permutation; try apply sortedKeys_NoDup.
  intros k. rewrite !elem_of_sortedKeys, Hdom. reflexivity.
Qed.

Lemma sortedKeys_lookup (m : gmap string Value) k :
  k ∈ sortedKeys m -> is_Some (m !! k).
Proof. rewrite elem_of_sortedKeys. apply elem_of_dom. Qed.

(** ** Counting bytes in joined text *)

Lemma countByte_app c (s1 s2 : string) :
  Go.countByte c (s1 +:+ s2) = Go.countByte c s1 + Go.countByte c s2.
Proof. induction s1 as [|d s1 IH]; simpl; [reflexivity | rewrite IH; lia]. Qed.

Lemma countByte_Join_replicate c (g sep : string) n :
  Go.countByte c (Go.Join (replicate n g) sep)
  = n * Go.countByte c g + pred n * Go.countByte c sep.
Proof.
  unfold Go.Join. induction n as [|n IH]; [reflexivity|].
  destruct n as [|n]; [simpl; lia|].
  change (String.concat sep (replicate (S (S n)) g))
    with (g +:+ sep +:+ String.concat sep (replicate (S n) g)).
  rewrite !countByte_app, IH. simpl. lia.
Qed.

(** The text of a row of [C] columns. *)
Definition placeholderGroup (C : nat) : string :=
  "(" +:+ Go.Join (replicate C "?") ", " +:+ ")".

Lemma valueQuery_group (m : gmap string Value) :
  valueQuery m = placeholderGroup (size m).
Proof.
  unfold valueQuery, placeholderGroup. rewrite <- length_sortedKeys.
  f_equal. f_equal. f_equal.
  induction (sortedKeys m) as [|k l IH]; simpl; [reflexivity | f_equal; exact IH].
Qed.

Lemma placeholderGroup_marks C :
  Go.countByte "?" (placeholderGroup C) = C
  /\ Go.countByte "(" (placeholderGroup C) = 1
  /\ Go.countByte ")" (placeholderGroup C) = 1.
Proof.
  unfold placeholderGroup.
  rewrite !countByte_app, !countByte_Join_replicate. simpl. lia.
Qed.

(** ** [extractMapValue] *)

Lemma containString_elem_of s value : containString s value = true <-> value ∈ s.
Proof.
  induction s as [|v s IH]; simpl.
  - split; [discriminate | intros H; inversion H].
  - rewrite elem_of_cons. destruct (bool_decide_reflect (v = value)) as [->|Hne].
    + tauto.
    + rewrite IH. split; [tauto | intros [->|H]; [contradiction | exact H]].
Qed.

(** The four reasons for which line 155 drops a field. *)
Definition dropped (excludeColumns : list string) (field : Field) : Prop :=
  Name field ∈ excludeColumns
  \/ (HasRelationship field = true \/ is_Some (TagSettingsGet field "FOREIGNKEY"))
  \/ IsIgnored field = true
  \/ (DBName field = "id" /\ IsPrimaryKey field = true).

Lemma isInsertColumn_false excl field :
  isInsertColumn excl field = false <-> dropped excl field.
Proof.
  unfold isInsertColumn, dropped.
  rewrite <- containString_elem_of.
  destruct (containString excl (Name field)); simpl; [tauto|].
  destruct (HasRelationship field); simpl; [tauto|].
  destruct (bool_decide_reflect (is_Some (TagSettingsGet field "FOREIGNKEY")));
    simpl; [tauto|].
  destruct (IsIgnored field); simpl; [tauto|].
  destruct (bool_decide_reflect (DBName field = "id")); simpl;
    destruct (IsPrimaryKey field); simpl; try tauto;
    (split; [discriminate | intros H; exfalso; intuition congruence]).
Qed.

Lemma isInsertColumn_true excl field :
  isInsertColumn excl field = true <-> ~ dropped excl field.
Proof.
  rewrite <- isInsertColumn_false. destruct (isInsertColumn excl field); split;
    congruence || (intros H; exfalso; apply H; reflexivity) || reflexivity.
Qed.

Section extraction.
Variable E : Collaborator.

Lemma extractField_dom excl attrs t field :
  dom (extractField E excl (attrs, t) field).1
  = if isInsertColumn excl field then {[DBName field]} ∪ dom attrs else dom attrs.
Proof.
  unfold extractField. destruct (isInsertColumn excl field); [|reflexivity].
  destruct (_ || _); simpl; [apply dom_insert_L|].
  destruct (_ && _); [|apply dom_insert_L].
  destruct (TagSettingsGet field "DEFAULT"); apply dom_insert_L.
Qed.

Lemma extractFields_dom excl fields : forall acc k,
  k ∈ dom (fold_left (extractField E excl) fields acc).1
  <-> k ∈ dom acc.1
      \/ exists field, field ∈ fields /\ DBName field = k
                       /\ isInsertColumn excl field = true.
Proof.
  induction fields as [|f fields IH]; intros [attrs t] k; cbn [fold_left fst].
  - split; [tauto | intros [H|(f & Hin & _)]; [exact H | inversion Hin]].
  - rewrite IH, extractField_dom. cbn [fst].
    destruct (isInsertColumn excl f) eqn:Hf.
    + rewrite elem_of_union, elem_of_singleton. split.
      * intros [[->|H]|(g & Hin & Hk & Hg)].
        -- right. exists f. split; [left | split; [reflexivity | exact Hf]].
        -- left. exact H.
        -- right. exists g. split; [right; exact Hin | tauto].
      * intros [H|(g & Hin & Hk & Hg)]; [tauto|].
        apply elem_of_cons in Hin as [->|Hin]; [left; left; congruence|].
        right. exists g. tauto.
    + split.
      * intros [H|(g & Hin & Hk & Hg)]; [tauto|].
        right. exists g. split; [right; exact Hin | tauto].
      * intros [H|(g & Hin & Hk & Hg)]; [tauto|].
        apply elem_of_cons in Hin as [->|Hin]; [congruence|].
        right. exists g. tauto.
Qed.

(** The columns of a struct for a given exclusion list: a function of
    the field metadata, not of the field values or of the clock. *)
Definition columnsOf (excl : list string) (fields : list Field) : gset string :=
  list_to_set (DBName <$> filter (fun f => isInsertColumn excl f = true) fields).

Lemma extractMapValue_Struct excl table fields t :
  exists attrs t',
    extractMapValue E (Struct table fields) excl t = (Ok attrs, t')
    /\ dom attrs = columnsOf excl fields.
Proof.
  unfold extractMapValue.
  destruct (fold_left (extractField E excl) fields (∅, t)) as [attrs t'] eqn:Hfold.
  exists attrs, t'. split; [reflexivity|].
  apply set_eq. intros k.
  pose proof (extractFields_dom excl fields (∅, t) k) as H.
  rewrite Hfold in H. simpl in H. rewrite H, dom_empty_L.
  unfold columnsOf. rewrite elem_of_list_to_set, list_elem_of_fmap.
  split.
  - intros [Hk|(f & Hin & Hk & Hf)]; [set_solver|].
    exists f. split; [congruence|]. apply list_elem_of_filter. tauto.
  - intros (f & -> & Hin). apply list_elem_of_filter in Hin as [Hf Hin].
    right. exists f. tauto.
Qed.

Lemma extractMapValue_Ok_inv obj excl t attrs t' :
  extractMapValue E obj excl t = (Ok attrs, t') ->
  exists table fields, obj = Struct table fields /\ dom attrs = columnsOf excl fields.
Proof.
  destruct obj as [table fields|table fields|v]; try discriminate.
  intros H. exists table, fields. split; [reflexivity|].
  destruct (extractMapValue_Struct excl table fields t) as (a & t'' & Heq & Hdom).
  congruence.
Qed.

End extraction.

(** ** Sample records and a sample collaborator *)

Definition plainField (name dbName : string) (v : Value) : Field :=
  mkField name dbName false false false false false ∅ v.

Definition idField : Field :=
  mkField "ID" "id" true false true false false ∅ (VStr "").

Definition ownerField : Field :=
  mkField "Owner" "owner" false false true true false ∅ VNil.

Definition backtick : Collaborator :=
  mkCollaborator Z.of_nat (fun name => name)
    (fun table => "`" +:+ table +:+ "`") (fun _ _ => None).

Definition annFields : list Field :=
  [idField; plainField "Name" "name" (VStr "ann"); ownerField;
   plainField "Age" "age" (VInt 41)].

Definition ann : Object := Struct "user" annFields.

Ltac in_list := apply list_elem_of_In; simpl; tauto.

(** The repository's [Model]: under the identity naming strategy of
    [Instantiate] the column of its primary key is [ID]. *)
Definition modelFields : list Field :=
  [mkField "ID" "ID" true false false false false ∅ (VStr "9m4e2mr0ui3e8a215n4g");
   plainField "CreatedAt" "CreatedAt" (VTime 0);
   plainField "UpdatedAt" "UpdatedAt" (VTime 0)].

(** C2, contradicted as stated: the field ID is the primary key and is
    flagged as primary, it is not excluded, no relationship and not
    ignored, and yet it is in the mapping and in the statement, because
    its column is "ID" and line 156 compares the column with "id". *)
Lemma primary_key_under_column_ID_is_inserted :
  exists key attrs,
    modelFields !! 0 = Some key
    /\ IsPrimaryKey key = true
    /\ DBName key = "ID"
    /\ (Name key ∉ ([] : list string))
    /\ HasRelationship key = false
    /\ TagSettingsGet key "FOREIGNKEY" = None
    /\ IsIgnored key = false
    /\ extractMapValue backtick (Struct "Model" modelFields) [] 0 = (Ok attrs, 2)
    /\ attrs !! "ID" = Some (VStr "9m4e2mr0ui3e8a215n4g")
    /\ insertObjSet backtick (mkWorld 0 []) [Struct "Model" modelFields] false []
       = (None,
          mkWorld 4 [mkStmt "INSERT INTO `Model` (CreatedAt, ID, UpdatedAt) VALUES (?, ?, ?)"
                            [VTime 2; VStr "9m4e2mr0ui3e8a215n4g"; VTime 3]]).
Proof.
  eexists _, _. split; [reflexivity|].
  split; [reflexivity|]. split; [reflexivity|].
  split; [intros H; inversion H|].
  split; [reflexivity|]. split; [reflexivity|]. split; [reflexivity|].
  split; [vm_compute; reflexivity|].
  split; vm_compute; reflexivity.
Qed.

(** C2, as the code has it: [extractMapValue] succeeds on every struct,
    and a column is in the mapping exactly when some field with that
    column meets none of the four reasons to drop it: its name is
    excluded; it is a relationship or carries a FOREIGNKEY tag; it is
    ignored; its column is exactly "id" and it is flagged as primary
    key. So every field that meets none appears, a primary key under
    another column among them, and a field that meets one is absent,
    given that no other field of the record has the same column. *)
Theorem extractMapValue_drops_exactly E excl table fields t :
  exists attrs t',
    extractMapValue E (Struct table fields) excl t = (Ok attrs, t')
    /\ (forall k, k ∈ dom attrs
                  <-> exists f, f ∈ fields /\ DBName f = k /\ ~ dropped excl f)
    /\ (forall f, f ∈ fields -> ~ dropped excl f -> DBName f ∈ dom attrs)
    /\ (forall f, f ∈ fields ->
                  (forall g, g ∈ fields -> DBName g = DBName f -> g = f) ->
                  (DBName f ∉ dom attrs <-> dropped excl f)).
Proof.
  destruct (extractMapValue_Struct E excl table fields t) as (attrs & t' & Heq & Hdom).
  exists attrs, t'. split; [exact Heq|].
  assert (Hkeys : forall k, k ∈ dom attrs
                    <-> exists f, f ∈ fields /\ DBName f = k /\ ~ dropped excl f).
  { intros k. rewrite Hdom. unfold columnsOf.
    rewrite elem_of_list_to_set, list_elem_of_fmap. split.
    - intros (f & -> & Hin). apply list_elem_of_filter in Hin as [Hf Hin].
      exists f. rewrite <- isInsertColumn_true. tauto.
    - intros (f & Hin & <- & Hf). exists f. split; [reflexivity|].
      apply list_elem_of_filter. rewrite isInsertColumn_true. tauto. }
  split; [exact Hkeys|]. split.
  - intros f Hin Hf. apply Hkeys. exists f. tauto.
  - intros f Hin Huniq. rewrite Hkeys. split.
    + intros Hnone. apply isInsertColumn_false.
      destruct (isInsertColumn excl f) eqn:Hf; [|reflexivity].
      exfalso. apply Hnone. exists f. rewrite <- isInsertColumn_true. tauto.
    + intros Hdrop (g & Hg & Hcol & Hkeep).
      apply Huniq in Hcol; [|exact Hg]. subst g. contradiction.
Qed.

Lemma extractMapValue_drops_exactly_witness :
  exists attrs t',
    extractMapValue backtick ann ["Age"] 0 = (Ok attrs, t')
    /\ ("name" ∈ dom attrs)
    /\ ("id" ∉ dom attrs) /\ ("owner" ∉ dom attrs) /\ ("age" ∉ dom attrs).
Proof.
  destruct (extractMapValue_drops_exactly backtick ["Age"] "user" annFields 0)
    as (attrs & t' & Heq & _ & Hkept & Hgone).
  exists attrs, t'. split; [exact Heq|].
  assert (Hdistinct : forall f g : Field,
            f ∈ annFields -> g ∈ annFields -> DBName g = DBName f -> g = f).
  { intros f g Hf Hg. apply list_elem_of_In in Hf, Hg. simpl in Hf, Hg.
    intuition (subst; simpl in *; congruence). }
  split.
  - apply (Hkept (plainField "Name" "name" (VStr "ann"))); [in_list|].
    intros [H|[[H|[v H]]|[H|[H _]]]]; simpl in H; try discriminate.
    apply list_elem_of_singleton in H. discriminate.
  - split; [|split].
    + apply (Hgone idField); [in_list | intros g Hg; apply Hdistinct; [in_list | exact Hg] |].
      right. right. right. split; reflexivity.
    + apply (Hgone ownerField); [in_list | intros g Hg; apply Hdistinct; [in_list | exact Hg] |].
      right. left. left. reflexivity.
    + apply (Hgone (plainField "Age" "age" (VInt 41)));
        [in_list | intros g Hg; apply Hdistinct; [in_list | exact Hg] |].
      left. simpl. in_list.
Defined.

(** ** The rows of one statement *)

(** The number of columns [extractMapValue] finds in an element, when it
    is a struct. *)
Definition mappingSize (excl : list string) (obj : Object) : option nat :=
  match obj with
  | Struct _ fields => Some (size (columnsOf excl fields))
  | _ => None
  end.

Section rows.
Variable E : Collaborator.

(** The mappings of a batch, as the loop of [insertObjSet] extracts
    them one after the other. *)
Fixpoint extractAll (objects : list Object) (excl : list string) (t : nat)
  : Result (list (gmap string Value)) * nat :=
  match objects with
  | [] => (Ok [], t)
  | obj :: rest =>
      match extractMapValue E obj excl t with
      | (Err e, t') => (Err e, t')
      | (Ok m, t') =>
          match extractAll rest excl t' with
          | (Err e, t'') => (Err e, t'')
          | (Ok ms, t'') => (Ok (m :: ms), t'')
          end
      end
  end.

Lemma extractMapValue_size obj excl t m t' :
  extractMapValue E obj excl t = (Ok m, t') ->
  mappingSize excl obj = Some (size m).
Proof.
  intros H. apply extractMapValue_Ok_inv in H as (table & fields & -> & Hdom).
  simpl. rewrite <- Hdom, size_dom. reflexivity.
Qed.

Lemma extractMapValue_not_struct obj excl t :
  mappingSize excl obj = None ->
  extractMapValue E obj excl t = (Err "value must be kind of Struct", t).
Proof. destruct obj; simpl; [discriminate | reflexivity | reflexivity]. Qed.

Lemma extractMapValue_struct obj excl t n :
  mappingSize excl obj = Some n ->
  exists m t', extractMapValue E obj excl t = (Ok m, t') /\ size m = n.
Proof.
  destruct obj as [table fields| |]; try discriminate. intros [= <-].
  destruct (extractMapValue_Struct E excl table fields t) as (m & t' & Heq & Hdom).
  exists m, t'. split; [exact Heq|]. rewrite <- Hdom, size_dom. reflexivity.
Qed.

Lemma extractMapValue_Err_inv obj excl t e t' :
  extractMapValue E obj excl t = (Err e, t') ->
  e = "value must be kind of Struct" /\ t' = t /\ mappingSize excl obj = None.
Proof.
  destruct obj as [table fields| |]; simpl.
  - destruct (fold_left _ _ _); discriminate.
  - intros [= <- <-]. tauto.
  - intros [= <- <-]. tauto.
Qed.

Lemma insertRows_Ok excl attrSize objects : forall ph vars t ms t',
  extractAll objects excl t = (Ok ms, t') ->
  Forall (fun m => size m = attrSize) ms ->
  insertRows E objects excl attrSize ph vars t
  = (Ok (ph ++ (valueQuery <$> ms), vars ++ concat (rowVars <$> ms)), t').
Proof.
  induction objects as [|obj rest IH]; intros ph vars t ms t'; simpl.
  - intros [= <- <-] _. simpl. rewrite !app_nil_r. reflexivity.
  - destruct (extractMapValue E obj excl t) as [[m|e] t1]; [|discriminate].
    destruct (extractAll rest excl t1) as [[ms'|e] t2] eqn:Hrest; [|discriminate].
    intros [= <- <-] Hall. apply Forall_cons in Hall as [Hm Hall].
    rewrite bool_decide_eq_false_2 by (intros Hne; apply Hne, Hm).
    rewrite (IH _ _ _ _ _ Hrest Hall). simpl.
    rewrite <- !app_assoc. reflexivity.
Qed.

Lemma insertRows_Ok_inv excl attrSize objects : forall ph vars t ph' vars' t',
  insertRows E objects excl attrSize ph vars t = (Ok (ph', vars'), t') ->
  exists ms,
    extractAll objects excl t = (Ok ms, t')
    /\ Forall (fun m => size m = attrSize) ms
    /\ ph' = ph ++ (valueQuery <$> ms)
    /\ vars' = vars ++ concat (rowVars <$> ms).
Proof.
  induction objects as [|obj rest IH]; intros ph vars t ph' vars' t'; simpl.
  - intros [= <- <- <-]. exists []. simpl. rewrite !app_nil_r. auto.
  - destruct (extractMapValue E obj excl t) as [[m|e] t1]; [|discriminate].
    destruct (bool_decide_reflect (size m ≠ attrSize)) as [Hne|Heq]; [discriminate|].
    intros Hrows. apply IH in Hrows as (ms & Hall & Hsizes & -> & ->).
    exists (m :: ms). rewrite Hall. simpl. rewrite <- !app_assoc.
    split; [reflexivity|]. split; [|auto].
    constructor; [|exact Hsizes].
    destruct (decide (size m = attrSize)); [assumption | contradiction].
Qed.

Lemma insertRows_Err_inv excl attrSize objects : forall ph vars t e t',
  insertRows E objects excl attrSize ph vars t = (Err e, t') ->
  e = "attribute sizes are inconsistent" \/ e = "value must be kind of Struct".
Proof.
  induction objects as [|obj rest IH]; intros ph vars t e t'; simpl; [discriminate|].
  destruct (extractMapValue E obj excl t) as [[m|e'] t1] eqn:Hobj.
  - destruct (bool_decide (size m ≠ attrSize)).
    + intros [= <- <-]. left. reflexivity.
    + apply IH.
  - intros [= <- <-]. right. apply extractMapValue_Err_inv in Hobj. tauto.
Qed.

(** The first element whose mapping has another size stops the loop with
    the consistency error, when all elements before it are structs. *)
Lemma insertRows_first_mismatch excl attrSize pre obj post n :
  Forall (fun p => is_Some (mappingSize excl p)) pre ->
  mappingSize excl obj = Some n -> n <> attrSize ->
  forall ph vars t, exists t',
    insertRows E (pre ++ obj :: post) excl attrSize ph vars t
    = (Err "attribute sizes are inconsistent", t').
Proof.
  intros Hpre Hobj Hne. induction Hpre as [|p pre [np Hp] Hpre IH]; intros ph vars t; simpl.
  - destruct (extractMapValue_struct obj excl t n Hobj) as (m & t' & -> & Hm).
    rewrite bool_decide_eq_true_2 by congruence. eauto.
  - destruct (extractMapValue_struct p excl t np Hp) as (m & t' & -> & Hm).
    destruct (bool_decide (size m ≠ attrSize)); [eauto | apply IH].
Qed.

(** Any element of another size makes the loop fail, one way or the
    other. *)
Lemma insertRows_mismatch excl attrSize objects obj n :
  obj ∈ objects -> mappingSize excl obj = Some n -> n <> attrSize ->
  forall ph vars t, exists e t',
    insertRows E objects excl attrSize ph vars t = (Err e, t').
Proof.
  intros Hin Hobj Hne ph vars t.
  destruct (insertRows E objects excl attrSize ph vars t) as [[[ph' vars']|e] t'] eqn:Hrows;
    [|eauto].
  exfalso. apply insertRows_Ok_inv in Hrows as (ms & Hall & Hsizes & _).
  clear ph vars ph' vars'. revert t ms Hall Hsizes.
  induction objects as [|o rest IH]; intros t ms; [inversion Hin|]. simpl.
  destruct (extractMapValue E o excl t) as [[m|e] t1] eqn:Ho; [|discriminate].
  destruct (extractAll rest excl t1) as [[ms'|e] t2] eqn:Hrest; [|discriminate].
  intros [= <- <-] Hsizes. apply Forall_cons in Hsizes as [Hm Hsizes].
  apply elem_of_cons in Hin as [->|Hin].
  - apply extractMapValue_size in Ho. congruence.
  - exact (IH Hin _ _ Hrest Hsizes).
Qed.

(** The statement [insertObjSet] hands to [db.Exec] for a batch whose
    first element is [first], with [firstAttrs] extracted before the loop
    and [ms] extracted in it. *)
Definition builtStatement (replace : bool) (first : Object)
    (firstAttrs : gmap string Value) (ms : list (gmap string Value)) : Stmt :=
  mkStmt (statementText E replace (tableOf first)
            (ToColumnName E <$> sortedKeys firstAttrs) (valueQuery <$> ms))
         (concat (rowVars <$> ms)).

Lemma insertObjSet_executes db first rest replace excl firstAttrs t1 ms t2 :
  extractMapValue E first excl (ticks db) = (Ok firstAttrs, t1) ->
  extractAll (first :: rest) excl t1 = (Ok ms, t2) ->
  Forall (fun m => size m = size firstAttrs) ms ->
  insertObjSet E db (first :: rest) replace excl
  = (Exec E (executed db) (builtStatement replace first firstAttrs ms),
     mkWorld t2 (executed db ++ [builtStatement replace first firstAttrs ms])).
Proof.
  intros Hfirst Hall Hsizes. unfold insertObjSet. rewrite Hfirst.
  rewrite (insertRows_Ok excl (size firstAttrs) (first :: rest) [] [] t1 ms t2 Hall Hsizes).
  reflexivity.
Qed.

(** Whatever the batch, [insertObjSet] ends in one of three ways: nothing
    to do; an error of its own, with no statement executed; or exactly
    one statement executed, whose error it returns. *)
Lemma insertObjSet_cases db objects replace excl :
  (objects = [] /\ insertObjSet E db objects replace excl = (None, db))
  \/ (exists e t,
        insertObjSet E db objects replace excl = (Some e, mkWorld t (executed db))
        /\ (e = "attribute sizes are inconsistent" \/ e = "value must be kind of Struct"))
  \/ (exists first rest firstAttrs t1 ms t2,
        objects = first :: rest
        /\ extractMapValue E first excl (ticks db) = (Ok firstAttrs, t1)
        /\ extractAll (first :: rest) excl t1 = (Ok ms, t2)
        /\ Forall (fun m => size m = size firstAttrs) ms
        /\ insertObjSet E db objects replace excl
           = (Exec E (executed db) (builtStatement replace first firstAttrs ms),
              mkWorld t2 (executed db ++ [builtStatement replace first firstAttrs ms]))).
Proof.
  destruct objects as [|first rest]; [left; split; reflexivity|]. right.
  destruct (extractMapValue E first excl (ticks db)) as [[firstAttrs|e] t1] eqn:Hfirst.
  - destruct (insertRows E (first :: rest) excl (size firstAttrs) [] [] t1)
      as [[[ph vars]|e] t2] eqn:Hrows.
    + right. apply insertRows_Ok_inv in Hrows as (ms & Hall & Hsizes & _).
      exists first, rest, firstAttrs, t1, ms, t2.
      repeat (split; [first [reflexivity | assumption]|]).
      apply (insertObjSet_executes _ _ _ _ _ _ t1); assumption.
    + left. exists e, t2. unfold insertObjSet. rewrite Hfirst, Hrows.
      split; [reflexivity|]. eapply insertRows_Err_inv; exact Hrows.
  - left. exists e, t1. unfold insertObjSet. rewrite Hfirst.
    split; [reflexivity|]. apply extractMapValue_Err_inv in Hfirst. tauto.
Qed.

Lemma extractAll_length objects excl : forall t ms t',
  extractAll objects excl t = (Ok ms, t') -> length ms = length objects.
Proof.
  induction objects as [|obj rest IH]; intros t ms t'; simpl.
  - intros [= <- <-]. reflexivity.
  - destruct (extractMapValue E obj excl t) as [[m|e] t1]; [|discriminate].
    destruct (extractAll rest excl t1) as [[ms'|e] t2] eqn:Hrest; [|discriminate].
    intros [= <- <-]. simpl. f_equal. eapply IH; exact Hrest.
Qed.

(** The mappings of the loop have the columns of their structs. *)
Lemma extractAll_dom objects excl : forall t ms t',
  extractAll objects excl t = (Ok ms, t') ->
  Forall2 (fun obj m => exists table fields,
             obj = Struct table fields /\ dom m = columnsOf excl fields) objects ms.
Proof.
  induction objects as [|obj rest IH]; intros t ms t'; simpl.
  - intros [= <- <-]. constructor.
  - destruct (extractMapValue E obj excl t) as [[m|e] t1] eqn:Hobj; [|discriminate].
    destruct (extractAll rest excl t1) as [[ms'|e] t2] eqn:Hrest; [|discriminate].
    intros [= <- <-]. constructor; [|eapply IH; exact Hrest].
    eapply extractMapValue_Ok_inv; exact Hobj.
Qed.

End rows.

(** ** Rows and their order *)

(** [vars] lists the values of [m] at [keys], key by key. *)
Definition boundAt (keys : list string) (m : gmap string Value) (vars : list Value) : Prop :=
  Forall2 (fun key v => m !! key = Some v) keys vars.

Lemma rowVars_own_order (m : gmap string Value) : boundAt (sortedKeys m) m (rowVars m).
Proof.
  unfold boundAt, rowVars. apply Forall2_fmap_r, Forall_Forall2_diag, Forall_forall.
  intros k Hk. apply sortedKeys_lookup in Hk as [v Hv].
  unfold compose. rewrite Hv. reflexivity.
Qed.

Lemma rowVars_shared_order (m first : gmap string Value) :
  dom m = dom first -> boundAt (sortedKeys first) m (rowVars m).
Proof.
  intros Hdom. rewrite <- (sortedKeys_dom m first Hdom). apply rowVars_own_order.
Qed.

Lemma length_rowVars (m : gmap string Value) : length (rowVars m) = size m.
Proof. unfold rowVars. rewrite length_fmap. apply length_sortedKeys. Qed.

Lemma length_concat_rowVars C (ms : list (gmap string Value)) :
  Forall (fun m => size m = C) ms ->
  length (concat (rowVars <$> ms)) = length ms * C.
Proof.
  induction 1 as [|m ms Hm _ IH]; [reflexivity|].
  rewrite fmap_cons, concat_cons, length_app, length_rowVars, IH, Hm. reflexivity.
Qed.

Lemma valueQuery_replicate C (ms : list (gmap string Value)) :
  Forall (fun m => size m = C) ms ->
  valueQuery <$> ms = replicate (length ms) (placeholderGroup C).
Proof.
  induction 1 as [|m ms Hm _ IH]; [reflexivity|].
  rewrite fmap_cons, valueQuery_group, Hm, IH. reflexivity.
Qed.

(** The size of the mapping extracted before the loop is the size of
    the first mapping extracted in it. *)
Lemma first_mapping_size E first rest excl t0 ms t2 C :
  extractAll E (first :: rest) excl (extractMapValue E first excl t0).2 = (Ok ms, t2) ->
  Forall (fun m => size m = C) ms ->
  exists firstAttrs,
    extractMapValue E first excl t0
    = (Ok firstAttrs, (extractMapValue E first excl t0).2)
    /\ size firstAttrs = C
    /\ exists m0 ms', ms = m0 :: ms' /\ dom m0 = dom firstAttrs.
Proof.
  intros Hall Hsizes. pose proof (extractAll_dom E _ _ _ _ _ Hall) as Hdoms.
  inversion Hdoms as [|? m0 ? ms' (table & fields & -> & Hdom0) _]; subst.
  destruct (extractMapValue_Struct E excl table fields t0) as (firstAttrs & t1 & Heq & Hdom).
  exists firstAttrs. rewrite Heq. split; [reflexivity|].
  apply Forall_cons in Hsizes as [Hm0 _].
  split; [|exists m0, ms'; split; [reflexivity | congruence]].
  rewrite <- Hm0, <- (size_dom (D := gset string) firstAttrs),
    <- (size_dom (D := gset string) m0). congruence.
Qed.

Definition rex : Object :=
  Struct "user" [idField; plainField "Nick" "nick" (VStr "rex");
                 plainField "Age" "age" (VInt 3)].

(** The mapping of a sample record, nothing excluded. *)
Definition attrsOf (obj : Object) : gmap string Value :=
  match extractMapValue backtick obj [] 0 with
  | (Ok m, _) => m
  | (Err _, _) => ∅
  end.

(** C1, contradicted as stated: two mappings of the same size 2 but with
    other keys. The statement names the columns of the first record, and
    the fourth parameter, which stands under column [name], is the
    second record's [nick]: that row is not bound in the shared key
    order. *)
Lemma equal_sizes_do_not_give_the_shared_order :
  extractAll backtick [ann; rex] [] 0 = (Ok [attrsOf ann; attrsOf rex], 0)
  /\ size (attrsOf ann) = 2 /\ size (attrsOf rex) = 2
  /\ insertObjSet backtick (mkWorld 0 []) [ann; rex] false []
     = (None,
        mkWorld 0 [mkStmt "INSERT INTO `user` (age, name) VALUES (?, ?), (?, ?)"
                          [VInt 41; VStr "ann"; VInt 3; VStr "rex"]])
  /\ sortedKeys (attrsOf ann) = ["age"; "name"]
  /\ rowVars (attrsOf rex) = [VInt 3; VStr "rex"]
  /\ ~ boundAt (sortedKeys (attrsOf ann)) (attrsOf rex) (rowVars (attrsOf rex)).
Proof.
  repeat (split; [vm_compute; reflexivity|]).
  intros H. assert (Hk : sortedKeys (attrsOf ann) = ["age"; "name"]) by (vm_compute; reflexivity).
  assert (Hv : rowVars (attrsOf rex) = [VInt 3; VStr "rex"]) by (vm_compute; reflexivity).
  rewrite Hk, Hv in H. unfold boundAt in H.
  apply Forall2_cons_1 in H as [_ H]. apply Forall2_cons_1 in H as [H _].
  assert (Hn : attrsOf rex !! "name" = None) by (vm_compute; reflexivity).
  rewrite Hn in H. discriminate H.
Qed.

(** C1, as the code has it: for a non-empty batch whose N mappings all
    have size C, [insertObjSet] executes one statement; its text ends in
    N groups, each with C marks "?", so N times C marks and N pairs of
    parentheses; its parameter list has length N times C and is the
    rows' values in batch order, each row's values listed in the sorted
    order of that row's own keys. That order is the shared one, the
    sorted keys of the first mapping, for every row with the key set of
    the first mapping. *)
Theorem insertObjSet_groups_and_parameters E db first rest replace excl ms t2 C :
  extractAll E (first :: rest) excl (extractMapValue E first excl (ticks db)).2
  = (Ok ms, t2) ->
  Forall (fun m => size m = C) ms ->
  exists firstAttrs stmt,
    (extractMapValue E first excl (ticks db)).1 = Ok firstAttrs
    /\ insertObjSet E db (first :: rest) replace excl
       = (Exec E (executed db) stmt, mkWorld t2 (executed db ++ [stmt]))
    /\ length ms = length (first :: rest)
    /\ SQL stmt
       = statementText E replace (tableOf first)
           (ToColumnName E <$> sortedKeys firstAttrs)
           (replicate (length ms) (placeholderGroup C))
    /\ Go.countByte "?" (placeholderGroup C) = C
    /\ Go.countByte "?" (Go.Join (replicate (length ms) (placeholderGroup C)) ", ")
       = length ms * C
    /\ Go.countByte "(" (Go.Join (replicate (length ms) (placeholderGroup C)) ", ")
       = length ms
    /\ Go.countByte ")" (Go.Join (replicate (length ms) (placeholderGroup C)) ", ")
       = length ms
    /\ length (SQLVars stmt) = length ms * C
    /\ SQLVars stmt = concat (rowVars <$> ms)
    /\ Forall (fun m =>
                 length (rowVars m) = C
                 /\ Sorted Go.strLe (sortedKeys m)
                 /\ boundAt (sortedKeys m) m (rowVars m)
                 /\ (dom m = dom firstAttrs ->
                     boundAt (sortedKeys firstAttrs) m (rowVars m))) ms.
Proof.
  intros Hall Hsizes.
  destruct (first_mapping_size E first rest excl (ticks db) ms t2 C Hall Hsizes)
    as (firstAttrs & Hfirst & HC & _).
  exists firstAttrs, (builtStatement E replace first firstAttrs ms).
  split; [rewrite Hfirst; reflexivity|].
  split.
  { apply (insertObjSet_executes E _ _ _ _ _ _ _ _ _ Hfirst Hall).
    rewrite HC. exact Hsizes. }
  split; [exact (extractAll_length E _ _ _ _ _ Hall)|].
  split; [unfold builtStatement; simpl; rewrite (valueQuery_replicate C ms Hsizes);
          reflexivity|].
  pose proof (placeholderGroup_marks C) as (Hq & Ho & Hc).
  split; [exact Hq|].
  rewrite !countByte_Join_replicate, Hq, Ho, Hc. simpl.
  split; [lia|]. split; [lia|]. split; [lia|].
  split; [apply length_concat_rowVars; exact Hsizes|].
  split; [reflexivity|].
  eapply Forall_impl; [exact Hsizes|]. intros m Hm. simpl.
  split; [rewrite length_rowVars; exact Hm|].
  split; [apply sortedKeys_Sorted|].
  split; [apply rowVars_own_order | apply rowVars_shared_order].
Qed.

Lemma insertObjSet_groups_and_parameters_witness :
  exists firstAttrs stmt,
    (extractMapValue backtick ann [] 0).1 = Ok firstAttrs
    /\ insertObjSet backtick (mkWorld 0 []) [ann; ann; ann] true []
       = (None, mkWorld 0 [stmt])
    /\ SQL stmt = "REPLACE INTO `user` (age, name) VALUES (?, ?), (?, ?), (?, ?)"
    /\ length (SQLVars stmt) = 6.
Proof.
  destruct (insertObjSet_groups_and_parameters backtick (mkWorld 0 []) ann [ann; ann]
              true [] [attrsOf ann; attrsOf ann; attrsOf ann] 0 2)
    as (firstAttrs & stmt & Hfirst & Hrun & _ & Htext & _ & _ & _ & _ & Hlen & _).
  - vm_compute. reflexivity.
  - repeat constructor.
  - exists firstAttrs, stmt. split; [exact Hfirst|]. split; [exact Hrun|].
    split; [|exact Hlen].
    rewrite Htext. injection Hfirst as <-. vm_compute. reflexivity.
Defined.

Definition pairAB : Object :=
  Struct "pair" [plainField "A" "a" (VInt 1); plainField "B" "b" (VInt 2)].

Definition pairBC : Object :=
  Struct "pair" [plainField "B" "b" (VInt 20); plainField "C" "c" (VInt 30)].

(** C3, contradicted as stated: the columns are (a, b), from the first
    mapping, but the second row is iterated over its own keys b and c, so
    its value for b is the parameter that stands under column a. *)
Lemma later_row_iterated_in_its_own_key_order :
  insertObjSet backtick (mkWorld 0 []) [pairAB; pairBC] false []
  = (None,
     mkWorld 0 [mkStmt "INSERT INTO `pair` (a, b) VALUES (?, ?), (?, ?)"
                       [VInt 1; VInt 2; VInt 20; VInt 30]])
  /\ sortedKeys (attrsOf pairAB) = ["a"; "b"]
  /\ sortedKeys (attrsOf pairBC) = ["b"; "c"]
  /\ rowVars (attrsOf pairBC) = [VInt 20; VInt 30]
  /\ ~ boundAt (sortedKeys (attrsOf pairAB)) (attrsOf pairBC) (rowVars (attrsOf pairBC)).
Proof.
  repeat (split; [vm_compute; reflexivity|]).
  intros H. assert (Hk : sortedKeys (attrsOf pairAB) = ["a"; "b"]) by (vm_compute; reflexivity).
  assert (Hv : rowVars (attrsOf pairBC) = [VInt 20; VInt 30]) by (vm_compute; reflexivity).
  rewrite Hk, Hv in H. apply Forall2_cons_1 in H as [H _].
  assert (Hn : attrsOf pairBC !! "a" = None) by (vm_compute; reflexivity).
  rewrite Hn in H. discriminate H.
Qed.

(** C3, as the code has it: the column list of the statement is the
    sorted keys of the first mapping, each translated by the naming
    strategy; these keys are in ascending byte order, without repetition,
    and are exactly the columns of the first record, so any record with
    the same columns, whatever its values, the order of its fields or the
    time, gives the same list. Every row's values are iterated in the
    sorted order of that row's own keys, which is the order of the column
    list for every row with the key set of the first mapping. *)
Theorem column_order_from_first_mapping E db first rest replace excl ms t2 C :
  extractAll E (first :: rest) excl (extractMapValue E first excl (ticks db)).2
  = (Ok ms, t2) ->
  Forall (fun m => size m = C) ms ->
  exists table fields firstAttrs stmt,
    first = Struct table fields
    /\ (extractMapValue E first excl (ticks db)).1 = Ok firstAttrs
    /\ insertObjSet E db (first :: rest) replace excl
       = (Exec E (executed db) stmt, mkWorld t2 (executed db ++ [stmt]))
    /\ SQL stmt
       = statementText E replace table
           (ToColumnName E <$> sortedKeys firstAttrs) (valueQuery <$> ms)
    /\ Sorted Go.strLe (sortedKeys firstAttrs)
    /\ NoDup (sortedKeys firstAttrs)
    /\ (forall k, k ∈ sortedKeys firstAttrs <-> k ∈ columnsOf excl fields)
    /\ (forall E' table' fields' t m' t',
          extractMapValue E' (Struct table' fields') excl t = (Ok m', t') ->
          (fields' ≡ₚ fields \/ columnsOf excl fields' = columnsOf excl fields) ->
          ToColumnName E <$> sortedKeys m' = ToColumnName E <$> sortedKeys firstAttrs)
    /\ Forall (fun m =>
                 Sorted Go.strLe (sortedKeys m)
                 /\ boundAt (sortedKeys m) m (rowVars m)
                 /\ (dom m = dom firstAttrs -> sortedKeys m = sortedKeys firstAttrs)) ms.
Proof.
  intros Hall Hsizes.
  destruct (first_mapping_size E first rest excl (ticks db) ms t2 C Hall Hsizes)
    as (firstAttrs & Hfirst & HC & _).
  destruct (extractMapValue_Ok_inv E _ _ _ _ _ Hfirst) as (table & fields & -> & Hdom).
  exists table, fields, firstAttrs, (builtStatement E replace (Struct table fields) firstAttrs ms).
  split; [reflexivity|].
  split; [rewrite Hfirst; reflexivity|].
  split.
  { apply (insertObjSet_executes E _ _ _ _ _ _ _ _ _ Hfirst Hall).
    rewrite HC. exact Hsizes. }
  split; [reflexivity|].
  split; [apply sortedKeys_Sorted|].
  split; [apply sortedKeys_NoDup|].
  split; [intros k; rewrite elem_of_sortedKeys, Hdom; reflexivity|].
  split.
  - intros E' table' fields' t m' t' Hother Hshape. f_equal.
    apply sortedKeys_dom.
    apply extractMapValue_Ok_inv in Hother as (tb & fs & [= <- <-] & Hdom').
    rewrite Hdom, Hdom'. destruct Hshape as [Hperm|Hcols]; [|exact Hcols].
    unfold columnsOf. apply set_eq. intros k.
    rewrite !elem_of_list_to_set, Hperm. reflexivity.
  - apply Forall_forall. intros m _.
    split; [apply sortedKeys_Sorted|].
    split; [apply rowVars_own_order | apply sortedKeys_dom].
Qed.

Lemma column_order_from_first_mapping_witness :
  exists stmt,
    insertObjSet backtick (mkWorld 0 []) [pairAB; pairAB] false []
    = (None, mkWorld 0 [stmt])
    /\ SQL stmt = "INSERT INTO `pair` (a, b) VALUES (?, ?), (?, ?)".
Proof.
  destruct (column_order_from_first_mapping backtick (mkWorld 0 []) pairAB [pairAB]
              false [] [attrsOf pairAB; attrsOf pairAB] 0 2)
    as (table & fields & firstAttrs & stmt & Hshape & Hfirst & Hrun & Htext & _).
  - vm_compute. reflexivity.
  - repeat constructor.
  - exists stmt. split; [exact Hrun|].
    rewrite Htext. injection Hshape as <- <-. injection Hfirst as <-.
    vm_compute. reflexivity.
Defined.

Definition contactByMail : Object :=
  Struct "contact" [plainField "Email" "email" (VStr "kim@example.org");
                    plainField "Name" "name" (VStr "kim")].

Definition contactByPhone : Object :=
  Struct "contact" [plainField "Name" "name" (VStr "lee");
                    plainField "Phone" "phone" (VStr "555-0100")].

(** C10: the check of line 108 reads sizes only. On every batch whose
    mappings have one size, whatever their keys, [insertObjSet] raises no
    error of its own and executes one statement: the columns are the
    sorted keys of the first mapping and each row's parameters are that
    row's values in the sorted order of its own keys. And there is a pair
    of records with mappings of equal size and other key sets for which
    this puts a value under a column the record does not have. *)
Theorem size_check_ignores_key_names :
  (forall E db first rest replace excl ms t2 C,
     extractAll E (first :: rest) excl (extractMapValue E first excl (ticks db)).2
     = (Ok ms, t2) ->
     Forall (fun m => size m = C) ms ->
     exists firstAttrs stmt,
       (extractMapValue E first excl (ticks db)).1 = Ok firstAttrs
       /\ insertObjSet E db (first :: rest) replace excl
          = (Exec E (executed db) stmt, mkWorld t2 (executed db ++ [stmt]))
       /\ SQL stmt
          = statementText E replace (tableOf first)
              (ToColumnName E <$> sortedKeys firstAttrs) (valueQuery <$> ms)
       /\ SQLVars stmt = concat (rowVars <$> ms)
       /\ Forall (fun m => boundAt (sortedKeys m) m (rowVars m)) ms)
  /\ (exists first second stmt,
        mappingSize [] first = mappingSize [] second
        /\ dom (attrsOf first) <> dom (attrsOf second)
        /\ insertObjSet backtick (mkWorld 0 []) [first; second] false []
           = (None, mkWorld 0 [stmt])
        /\ SQL stmt = "INSERT INTO `contact` (email, name) VALUES (?, ?), (?, ?)"
        /\ SQLVars stmt
           = [VStr "kim@example.org"; VStr "kim"] ++ rowVars (attrsOf second)
        /\ rowVars (attrsOf second) = [VStr "lee"; VStr "555-0100"]
        /\ sortedKeys (attrsOf second) = ["name"; "phone"]
        /\ attrsOf second !! "email" = None
        /\ attrsOf second !! "name" = Some (VStr "lee")).
Proof.
  split.
  - intros E db first rest replace excl ms t2 C Hall Hsizes.
    destruct (first_mapping_size E first rest excl (ticks db) ms t2 C Hall Hsizes)
      as (firstAttrs & Hfirst & HC & _).
    exists firstAttrs, (builtStatement E replace first firstAttrs ms).
    split; [rewrite Hfirst; reflexivity|].
    split.
    { apply (insertObjSet_executes E _ _ _ _ _ _ _ _ _ Hfirst Hall).
      rewrite HC. exact Hsizes. }
    split; [reflexivity|]. split; [reflexivity|].
    apply Forall_forall. intros m _. apply rowVars_own_order.
  - exists contactByMail, contactByPhone,
      (mkStmt "INSERT INTO `contact` (email, name) VALUES (?, ?), (?, ?)"
              [VStr "kim@example.org"; VStr "kim"; VStr "lee"; VStr "555-0100"]).
    split; [vm_compute; reflexivity|].
    split.
    { intros Hdom.
      assert (Hin : "email" ∈ dom (attrsOf contactByMail)).
      { apply elem_of_dom. exists (VStr "kim@example.org"). vm_compute. reflexivity. }
      rewrite Hdom in Hin. apply elem_of_dom in Hin as [v Hv].
      assert (Hn : attrsOf contactByPhone !! "email" = None) by (vm_compute; reflexivity).
      rewrite Hn in Hv. discriminate Hv. }
    repeat (split; [vm_compute; reflexivity|]). vm_compute. reflexivity.
Qed.

Lemma size_check_ignores_key_names_witness :
  exists stmt,
    insertObjSet backtick (mkWorld 0 []) [contactByPhone; contactByMail] true []
    = (None, mkWorld 0 [stmt])
    /\ SQLVars stmt = rowVars (attrsOf contactByPhone) ++ rowVars (attrsOf contactByMail).
Proof.
  destruct (proj1 size_check_ignores_key_names backtick (mkWorld 0 [])
              contactByPhone [contactByMail] true []
              [attrsOf contactByPhone; attrsOf contactByMail] 0 2)
    as (firstAttrs & stmt & _ & Hrun & _ & Hvars & _).
  - vm_compute. reflexivity.
  - repeat constructor.
  - exists stmt. split; [exact Hrun|]. rewrite Hvars. simpl.
    rewrite app_nil_r. reflexivity.
Defined.

Definition solo : Object := Struct "user" [plainField "Name" "name" (VStr "sol")].

(** An element that is not a struct stops the loop with the error of
    the kind test, when all elements before it are structs of the
    expected size. *)
Lemma insertRows_first_non_struct E excl attrSize pre obj post :
  Forall (fun p => mappingSize excl p = Some attrSize) pre ->
  mappingSize excl obj = None ->
  forall ph vars t, exists t',
    insertRows E (pre ++ obj :: post) excl attrSize ph vars t
    = (Err "value must be kind of Struct", t').
Proof.
  intros Hpre Hobj. induction Hpre as [|p pre Hp Hpre IH]; intros ph vars t; simpl.
  - rewrite (extractMapValue_not_struct E obj excl t Hobj). eauto.
  - destruct (extractMapValue_struct E p excl t attrSize Hp) as (m & t' & -> & Hm).
    rewrite bool_decide_eq_false_2 by (intros H; apply H, Hm). apply IH.
Qed.

(** The kind test comes before the size test: with an element that is
    not a struct before the record of another size, the error is the one
    of the kind test. *)
Lemma earlier_non_struct_hides_the_size_error :
  mappingSize [] ann = Some 2
  /\ mappingSize [] solo = Some 1
  /\ insertObjSet backtick (mkWorld 0 []) [ann; Prim (VInt 5); solo] false []
     = (Some "value must be kind of Struct", mkWorld 0 [])
  /\ fst (insertObjSet backtick (mkWorld 0 []) [ann; Prim (VInt 5); solo] false [])
     <> Some "attribute sizes are inconsistent".
Proof.
  repeat (split; [vm_compute; reflexivity|]).
  assert (H : fst (insertObjSet backtick (mkWorld 0 []) [ann; Prim (VInt 5); solo] false [])
              = Some "value must be kind of Struct") by (vm_compute; reflexivity).
  rewrite H. discriminate.
Qed.

(** C4: for every chunk of records, that is of structs, in which some
    record has a mapping of another size than the first record's,
    [insertObjSet] returns "attribute sizes are inconsistent" and
    executes nothing for that chunk. It is enough that the elements up
    to the first such record are structs. The kind test comes first: an
    element that is not a struct, with only structs of the first
    record's size before it, is reported as "value must be kind of
    Struct", again with nothing executed. *)
Theorem insertObjSet_inconsistent_sizes E db first rest replace excl n0 :
  mappingSize excl first = Some n0 ->
  (Forall (fun obj => is_Some (mappingSize excl obj)) rest ->
   (exists obj n, obj ∈ rest /\ mappingSize excl obj = Some n /\ n <> n0) ->
   exists t,
     insertObjSet E db (first :: rest) replace excl
     = (Some "attribute sizes are inconsistent", mkWorld t (executed db)))
  /\ (forall pre obj post n,
        rest = pre ++ obj :: post ->
        Forall (fun p => is_Some (mappingSize excl p)) pre ->
        mappingSize excl obj = Some n -> n <> n0 ->
        exists t,
          insertObjSet E db (first :: rest) replace excl
          = (Some "attribute sizes are inconsistent", mkWorld t (executed db)))
  /\ (forall pre obj post,
        rest = pre ++ obj :: post ->
        Forall (fun p => mappingSize excl p = Some n0) pre ->
        mappingSize excl obj = None ->
        exists t,
          insertObjSet E db (first :: rest) replace excl
          = (Some "value must be kind of Struct", mkWorld t (executed db))).
Proof.
  intros Hfirst.
  destruct (extractMapValue_struct E first excl (ticks db) n0 Hfirst)
    as (firstAttrs & t1 & Hextract & Hsize).
  assert (Hsplit : forall pre obj post n,
            rest = pre ++ obj :: post ->
            Forall (fun p => is_Some (mappingSize excl p)) pre ->
            mappingSize excl obj = Some n -> n <> n0 ->
            exists t,
              insertObjSet E db (first :: rest) replace excl
              = (Some "attribute sizes are inconsistent", mkWorld t (executed db))).
  { intros pre obj post n -> Hpre Hobj Hne.
    destruct (insertRows_first_mismatch E excl n0 (first :: pre) obj post n
                (Forall_cons_2 _ _ _ (ex_intro _ n0 Hfirst) Hpre) Hobj Hne [] [] t1)
      as (t' & Hrows).
    exists t'. unfold insertObjSet. rewrite Hextract, Hsize.
    change (first :: pre ++ obj :: post) with ((first :: pre) ++ obj :: post).
    rewrite Hrows. reflexivity. }
  split; [|split; [exact Hsplit|]].
  - intros Hstructs (obj & n & Hin & Hobj & Hne).
    apply list_elem_of_split in Hin as (pre & post & ->).
    apply (Hsplit pre obj post n eq_refl); [|exact Hobj | exact Hne].
    apply Forall_app in Hstructs as [Hpre _]. exact Hpre.
  - intros pre obj post -> Hpre Hobj.
    destruct (insertRows_first_non_struct E excl n0 (first :: pre) obj post
                (Forall_cons_2 _ _ _ Hfirst Hpre) Hobj [] [] t1) as (t' & Hrows).
    exists t'. unfold insertObjSet. rewrite Hextract, Hsize.
    change (first :: pre ++ obj :: post) with ((first :: pre) ++ obj :: post).
    rewrite Hrows. reflexivity.
Qed.

Lemma insertObjSet_inconsistent_sizes_witness :
  (exists t,
     insertObjSet backtick (mkWorld 0 []) [ann; ann; solo; ann] false []
     = (Some "attribute sizes are inconsistent", mkWorld t []))
  /\ (exists t,
        insertObjSet backtick (mkWorld 0 []) [ann; ann; Prim (VInt 5); solo] false []
        = (Some "value must be kind of Struct", mkWorld t [])).
Proof.
  split.
  - destruct (insertObjSet_inconsistent_sizes backtick (mkWorld 0 []) ann
                [ann; solo; ann] false [] 2 eq_refl) as [H _].
    apply H.
    + repeat constructor; eexists; reflexivity.
    + exists solo, 1. split; [in_list|]. split; [reflexivity | discriminate].
  - destruct (insertObjSet_inconsistent_sizes backtick (mkWorld 0 []) ann
                [ann; Prim (VInt 5); solo] false [] 2 eq_refl) as (_ & _ & H).
    apply (H [ann] (Prim (VInt 5)) [solo] eq_refl).
    + repeat constructor.
    + reflexivity.
Defined.

(** ** Chunks *)

Lemma splitObjects_from_concat k : forall fuel objArr,
  0 < k -> length objArr <= fuel ->
  concat (splitObjects_from fuel objArr k) = objArr.
Proof.
  induction fuel as [|fuel IH]; intros objArr Hk Hlen.
  - destruct objArr; [reflexivity | simpl in Hlen; lia].
  - destruct objArr as [|o rest]; [reflexivity|].
    cbn [splitObjects_from concat]. rewrite IH.
    + apply take_drop.
    + exact Hk.
    + rewrite length_drop. simpl in *. lia.
Qed.

Lemma splitObjects_from_sizes k : forall fuel objArr,
  0 < k ->
  Forall (fun chunk => 0 < length chunk <= k) (splitObjects_from fuel objArr k).
Proof.
  induction fuel as [|fuel IH]; intros objArr Hk; [constructor|].
  destruct objArr as [|o rest]; [constructor|].
  cbn [splitObjects_from]. constructor; [|apply IH; exact Hk].
  rewrite length_take. simpl. lia.
Qed.

(** Chunk [i] is the [k] records from position [i * k] on. *)
Lemma splitObjects_from_lookup k : forall fuel objArr i,
  0 < k -> length objArr <= fuel ->
  splitObjects_from fuel objArr k !! i
  = if decide (i * k < length objArr) then Some (take k (drop (i * k) objArr)) else None.
Proof.
  induction fuel as [|fuel IH]; intros objArr i Hk Hlen.
  - destruct objArr; [|simpl in Hlen; lia].
    cbn [splitObjects_from]. rewrite lookup_nil.
    destruct (decide (i * k < length (@nil Object))) as [H|H];
      [simpl in H; lia | reflexivity].
  - destruct objArr as [|o rest].
    + cbn [splitObjects_from]. rewrite lookup_nil.
      destruct (decide (i * k < length (@nil Object))) as [H|H];
        [simpl in H; lia | reflexivity].
    + cbn [splitObjects_from]. destruct i as [|i].
      * simpl. reflexivity.
      * cbn [lookup list_lookup]. rewrite IH; [|exact Hk|rewrite length_drop; simpl in *; lia].
        rewrite length_drop, drop_drop.
        replace (k + i * k) with (S i * k) by lia.
        destruct (decide (i * k < length (o :: rest) - k));
          destruct (decide (S i * k < length (o :: rest))); try reflexivity; lia.
Qed.

Lemma splitObjects_partition objArr (size : Z) :
  (0 < size)%Z ->
  concat (splitObjects objArr size) = objArr
  /\ Forall (fun chunk => 0 < length chunk /\ (Z.of_nat (length chunk) <= size)%Z)
            (splitObjects objArr size)
  /\ forall i,
       splitObjects objArr size !! i
       = if decide (i * Z.to_nat size < length objArr)
         then Some (take (Z.to_nat size) (drop (i * Z.to_nat size) objArr))
         else None.
Proof.
  intros Hsize. unfold splitObjects.
  assert (Hk : 0 < Z.to_nat size) by lia.
  split; [apply splitObjects_from_concat; [exact Hk | lia]|].
  split.
  - eapply Forall_impl; [apply splitObjects_from_sizes; exact Hk|].
    simpl. intros chunk [Hpos Hle]. split; [exact Hpos | lia].
  - intros i. apply splitObjects_from_lookup; [exact Hk | lia].
Qed.

Lemma splitObjects_nil size : splitObjects [] size = [].
Proof. reflexivity. Qed.


(** ** One statement per chunk, until a chunk fails *)

(** [stmt] is the statement of the batch [chunk]: its rows are the
    mappings extracted from the records of [chunk], in order, one row
    per record and each of [C] columns. *)
Definition insertsBatch (E : Collaborator) (replace : bool) (excl : list string)
    (chunk : list Object) (stmt : Stmt) : Prop :=
  exists first rest firstAttrs ms C t0 t1 t2,
    chunk = first :: rest
    /\ extractMapValue E first excl t0 = (Ok firstAttrs, t1)
    /\ extractAll E chunk excl t1 = (Ok ms, t2)
    /\ length ms = length chunk
    /\ Forall (fun m => size m = C) ms
    /\ stmt = builtStatement E replace first firstAttrs ms
    /\ SQL stmt
       = statementText E replace (tableOf first)
           (ToColumnName E <$> sortedKeys firstAttrs)
           (replicate (length chunk) (placeholderGroup C))
    /\ length (SQLVars stmt) = length chunk * C.

(** What one call of [insertObjSet] adds to the log. *)
Lemma insertObjSet_log E db objects replace excl :
  (insertObjSet E db objects replace excl = (None, db) /\ objects = [])
  \/ (exists e t,
        insertObjSet E db objects replace excl = (Some e, mkWorld t (executed db)))
  \/ (exists stmt t,
        insertObjSet E db objects replace excl
        = (Exec E (executed db) stmt, mkWorld t (executed db ++ [stmt]))
        /\ insertsBatch E replace excl objects stmt).
Proof.
  destruct (insertObjSet_cases E db objects replace excl)
    as [[-> Hrun]|[(e & t & Hrun & _)|Hrun]].
  - left. split; [exact Hrun | reflexivity].
  - right. left. eauto.
  - right. right.
    destruct Hrun as (first & rest & firstAttrs & t1 & ms & t2 & -> & Hfirst & Hall & Hsizes & Hrun).
    exists (builtStatement E replace first firstAttrs ms), t2.
    split; [exact Hrun|].
    exists first, rest, firstAttrs, ms, (size firstAttrs), (ticks db), t1, t2.
    pose proof (extractAll_length E _ _ _ _ _ Hall) as Hlen.
    split; [reflexivity|]. split; [exact Hfirst|]. split; [exact Hall|].
    split; [exact Hlen|]. split; [exact Hsizes|].
    split; [reflexivity|]. split.
    + unfold builtStatement. simpl.
      rewrite (valueQuery_replicate _ ms Hsizes), Hlen. reflexivity.
    + unfold builtStatement. simpl.
      rewrite (length_concat_rowVars _ ms Hsizes), Hlen. reflexivity.
Qed.

Lemma insertChunks_app E replace excl pre : forall db post,
  insertChunks E db (pre ++ post) replace excl
  = match insertChunks E db pre replace excl with
    | (Some err, db') => (Some err, db')
    | (None, db') => insertChunks E db' post replace excl
    end.
Proof.
  induction pre as [|c pre IH]; intros db post; [reflexivity|].
  cbn [app insertChunks].
  destruct (insertObjSet E db c replace excl) as [[err|] db']; [reflexivity | apply IH].
Qed.

(** The chunks of a list that hold a record. *)
Definition nonEmpty (chunks : list (list Object)) : list (list Object) :=
  filter (fun chunk => chunk <> []) chunks.

(** The log after [insertChunks]: one statement for each non-empty chunk
    in turn, as far as the loop got, and for all of them when it returns
    nil. *)
Lemma insertChunks_log E replace excl chunks : forall db err db',
  insertChunks E db chunks replace excl = (err, db') ->
  exists stmts,
    executed db' = executed db ++ stmts
    /\ length stmts <= length (nonEmpty chunks)
    /\ Forall2 (insertsBatch E replace excl) (take (length stmts) (nonEmpty chunks)) stmts
    /\ (err = None -> length stmts = length (nonEmpty chunks)).
Proof.
  induction chunks as [|c chunks IH]; intros db err db'.
  - intros [= <- <-]. exists []. rewrite app_nil_r.
    split; [reflexivity|]. split; [simpl; lia|]. split; [constructor | reflexivity].
  - cbn [insertChunks].
    destruct (insertObjSet_log E db c replace excl)
      as [[Hrun ->]|[(e & t & Hrun)|(stmt & t & Hrun & Hbatch)]]; rewrite Hrun.
    + intros Hrest. destruct (IH _ _ _ Hrest) as (stmts & Hlog & Hle & Hall & Hnone).
      exists stmts. unfold nonEmpty in *. rewrite filter_cons_False by tauto. tauto.
    + intros [= <- <-]. exists []. simpl. rewrite app_nil_r.
      split; [reflexivity|]. split; [lia|]. split; [constructor | discriminate].
    + assert (Hc : c <> []).
      { destruct Hbatch as (f & r & _ & _ & _ & _ & _ & _ & -> & _). discriminate. }
      unfold nonEmpty in *. rewrite filter_cons_True by exact Hc.
      destruct (Exec E (executed db) stmt) as [e|].
      * intros [= <- <-]. exists [stmt]. simpl.
        split; [reflexivity|]. split; [lia|].
        split; [repeat constructor; exact Hbatch | discriminate].
      * intros Hrest. destruct (IH _ _ _ Hrest) as (stmts & Hlog & Hle & Hall & Hnone).
        exists (stmt :: stmts). simpl in *. rewrite Hlog, <- app_assoc.
        split; [reflexivity|]. split; [lia|].
        split; [constructor; assumption|]. intros Herr. rewrite Hnone; tauto.
Qed.

Lemma nonEmpty_splitObjects objArr size :
  (0 < size)%Z -> nonEmpty (splitObjects objArr size) = splitObjects objArr size.
Proof.
  intros Hsize. destruct (splitObjects_partition objArr size Hsize) as (_ & Hsizes & _).
  unfold nonEmpty. induction Hsizes as [|c cs [Hpos _] _ IH]; [reflexivity|].
  rewrite filter_cons_True by (destruct c; [simpl in Hpos; lia | discriminate]).
  rewrite IH. reflexivity.
Qed.

(** A database that refuses every statement, and one that loses the
    connection at the second statement. *)
Definition refusing : Collaborator :=
  mkCollaborator Z.of_nat (fun name => name)
    (fun table => "`" +:+ table +:+ "`")
    (fun _ _ => Some "Error 1062: Duplicate entry").

Definition droppingSecond : Collaborator :=
  mkCollaborator Z.of_nat (fun name => name)
    (fun table => "`" +:+ table +:+ "`")
    (fun done _ => if bool_decide (length done = 1) then Some "connection lost" else None).

Definition fiveAnns : list Object := [ann; ann; ann; ann; ann].










(** A chunk that fails the size test is not executed at all: with the
    second record of another size nothing reaches the database. *)
Example size_failure_executes_nothing :
  BulkInsert backtick (mkWorld 0 []) (SliceOf [ann; solo; ann; ann; ann]) 2 false []
  = (Some "attribute sizes are inconsistent", mkWorld 0 []).
Proof. vm_compute. reflexivity. Qed.

(** C9: chunks are taken in order, and the first chunk for which
    [insertObjSet] returns an error (from extraction, from the size
    check, or from the execution) ends the call with that error in the
    state that chunk left: the statements of the chunks before it, one
    per non-empty chunk in order, then at most the one statement whose
    execution failed; the chunks after it add nothing, neither a reading
    of the clock nor a statement. An empty chunk and, for a positive
    chunk size, an empty input execute nothing and return nil. *)
Theorem BulkInsert_stops_at_first_failing_chunk E db replace excl :
  (forall pre chunk post db1 e db2,
     insertChunks E db pre replace excl = (None, db1) ->
     insertObjSet E db1 chunk replace excl = (Some e, db2) ->
     insertChunks E db (pre ++ chunk :: post) replace excl = (Some e, db2)
     /\ (exists stmts,
           executed db1 = executed db ++ stmts
           /\ Forall2 (insertsBatch E replace excl) (nonEmpty pre) stmts)
     /\ (executed db2 = executed db1
         \/ exists stmt,
              executed db2 = executed db1 ++ [stmt]
              /\ insertsBatch E replace excl chunk stmt
              /\ Exec E (executed db1) stmt = Some e))
  /\ (forall objs chunkSize pre chunk post db1 e db2,
        (0 < chunkSize)%Z ->
        splitObjects objs chunkSize = pre ++ chunk :: post ->
        insertChunks E db pre replace excl = (None, db1) ->
        insertObjSet E db1 chunk replace excl = (Some e, db2) ->
        BulkInsert E db (SliceOf objs) chunkSize replace excl = (Some e, db2))
  /\ insertObjSet E db [] replace excl = (None, db)
  /\ (forall chunkSize,
        (0 < chunkSize)%Z ->
        BulkInsert E db (SliceOf []) chunkSize replace excl = (None, db)).
Proof.
  assert (Hstop : forall pre chunk post db1 e db2,
            insertChunks E db pre replace excl = (None, db1) ->
            insertObjSet E db1 chunk replace excl = (Some e, db2) ->
            insertChunks E db (pre ++ chunk :: post) replace excl = (Some e, db2)).
  { intros pre chunk post db1 e db2 Hpre Hchunk.
    rewrite insertChunks_app, Hpre. cbn [insertChunks]. rewrite Hchunk. reflexivity. }
  split; [|split; [|split; [reflexivity | intros chunkSize _; reflexivity]]].
  - intros pre chunk post db1 e db2 Hpre Hchunk.
    split; [apply (Hstop _ _ _ _ _ _ Hpre Hchunk)|]. split.
    + destruct (insertChunks_log E replace excl _ _ _ _ Hpre) as (stmts & Hexec & _ & Hall & Hnone).
      exists stmts. split; [exact Hexec|].
      rewrite (Hnone eq_refl), firstn_all in Hall. exact Hall.
    + destruct (insertObjSet_log E db1 chunk replace excl)
        as [[Hrun _]|[(e' & t & Hrun)|(stmt & t & Hrun & Hbatch)]];
        rewrite Hrun in Hchunk.
      * discriminate Hchunk.
      * injection Hchunk as _ <-. left. reflexivity.
      * injection Hchunk as Herr <-. right. exists stmt. tauto.
  - intros objs chunkSize pre chunk post db1 e db2 _ Hsplit Hpre Hchunk.
    unfold BulkInsert. rewrite Hsplit. apply (Hstop _ _ _ _ _ _ Hpre Hchunk).
Qed.

Lemma BulkInsert_stops_at_first_failing_chunk_witness :
  exists s1 s2,
    BulkInsert droppingSecond (mkWorld 0 []) (SliceOf fiveAnns) 2 false []
    = (Some "connection lost", mkWorld 0 [s1; s2]).
Proof.
  destruct (BulkInsert_stops_at_first_failing_chunk droppingSecond (mkWorld 0 []) false [])
    as (_ & Hstop & _).
  eexists _, _.
  apply (Hstop fiveAnns 2%Z [[ann; ann]] [ann; ann] [[ann]]
           (snd (insertChunks droppingSecond (mkWorld 0 []) [[ann; ann]] false []))).
  - reflexivity.
  - vm_compute. reflexivity.
  - vm_compute. reflexivity.
  - vm_compute. reflexivity.
Defined.

End bulk_insert_props.

(** * Further properties: errors, the guard's life cycle, start-up *)

Module orm_extra.
Import gorm orm orm_props.

(** ** [strings.Split] *)

(** [sep] occurs in [s]. *)
Definition contains (sep s : string) : Prop :=
  exists p q, s = p +:+ sep +:+ q.

Lemma append_cons c (a b : string) : String c a +:+ b = String c (a +:+ b).
Proof. reflexivity. Qed.

Lemma append_assoc (a b c : string) : (a +:+ b) +:+ c = a +:+ b +:+ c.
Proof.
  induction a as [|x a IH]; [reflexivity|].
  rewrite !append_cons. f_equal. exact IH.
Qed.

Lemma append_nil_r (a : string) : a +:+ "" = a.
Proof.
  induction a as [|x a IH]; [reflexivity|].
  rewrite append_cons. f_equal. exact IH.
Qed.

Lemma prefix_append (sep rest : string) : String.prefix sep (sep +:+ rest) = true.
Proof.
  induction sep as [|c sep IH]; [destruct rest; reflexivity|].
  rewrite append_cons. cbn [String.prefix].
  destruct (ascii_dec c c); [exact IH | contradiction].
Qed.

Lemma prefix_inv (sep : string) : forall s,
  String.prefix sep s = true -> exists q, s = sep +:+ q.
Proof.
  induction sep as [|c sep IH]; intros s H.
  - exists s. reflexivity.
  - destruct s as [|d s]; simpl in H; [discriminate|].
    destruct (ascii_dec c d) as [->|]; [|discriminate].
    destruct (IH s H) as [q ->]. exists q. reflexivity.
Qed.

Lemma prefix_other_head c d (sep s : string) :
  c <> d -> String.prefix (String c sep) (String d s) = false.
Proof. intros Hne. simpl. destruct (ascii_dec c d); [contradiction | reflexivity]. Qed.

Lemma splitFrom_skip (sep cur : string) : forall mid rest,
  Go.splitFrom sep (String.length mid) cur (mid +:+ rest) = Go.splitFrom sep 0 cur rest.
Proof. induction mid as [|c mid IH]; intros rest; simpl; [reflexivity | apply IH]. Qed.

Lemma splitFrom_length (sep : string) : forall s skip cur,
  1 <= length (Go.splitFrom sep skip cur s).
Proof.
  induction s as [|c s IH]; intros skip cur; cbn [Go.splitFrom]; [simpl; lia|].
  destruct skip as [|k]; [|apply IH].
  destruct (String.prefix sep (String c s)); [simpl; lia | apply IH].
Qed.

(** At an occurrence of the separator the piece read so far is closed and
    the reading goes on after the separator. *)
Lemma splitFrom_match (sep cur q : string) :
  sep <> "" ->
  Go.splitFrom sep 0 cur (sep +:+ q) = cur :: Go.splitFrom sep 0 "" q.
Proof.
  intros Hsep. destruct sep as [|c sep']; [contradiction|].
  change (String c sep' +:+ q) with (String c (sep' +:+ q)).
  cbn [Go.splitFrom].
  change (String c (sep' +:+ q)) with (String c sep' +:+ q).
  rewrite prefix_append. f_equal.
  replace (String.length (String c sep') - 1) with (String.length sep') by (simpl; lia).
  apply splitFrom_skip.
Qed.

Lemma splitFrom_absent (sep : string) : forall s cur,
  ~ contains sep s -> Go.splitFrom sep 0 cur s = [cur +:+ s].
Proof.
  induction s as [|c s IH]; intros cur Habsent.
  - simpl. rewrite append_nil_r. reflexivity.
  - cbn [Go.splitFrom]. destruct (String.prefix sep (String c s)) eqn:Hp.
    + exfalso. apply Habsent. apply prefix_inv in Hp as [q Hq].
      exists "", q. exact Hq.
    + rewrite IH.
      * rewrite append_assoc. reflexivity.
      * intros (p & q & ->). apply Habsent. exists (String c p), q. reflexivity.
Qed.

Lemma splitFrom_present (sep : string) : forall s cur,
  sep <> "" -> contains sep s -> 2 <= length (Go.splitFrom sep 0 cur s).
Proof.
  induction s as [|c s IH]; intros cur Hsep (p & q & Hs).
  - destruct p; [destruct sep; [contradiction | discriminate] | discriminate].
  - cbn [Go.splitFrom]. destruct (String.prefix sep (String c s)) eqn:Hp.
    + pose proof (splitFrom_length sep s (String.length sep - 1) "") as Hlen.
      simpl. lia.
    + destruct p as [|d p].
      * change (String c s = sep +:+ q) in Hs.
        rewrite Hs, prefix_append in Hp. discriminate.
      * injection Hs as -> ->. apply IH; [exact Hsep | exists p, q; reflexivity].
Qed.

Lemma Join_cons (sep x y : string) (l : list string) :
  Go.Join (x :: y :: l) sep = x +:+ sep +:+ Go.Join (y :: l) sep.
Proof. reflexivity. Qed.

(** Joining the pieces with the separator gives the text back. *)
Lemma Join_splitFrom (sep : string) : sep <> "" -> forall n s cur,
  String.length s <= n ->
  Go.Join (Go.splitFrom sep 0 cur s) sep = cur +:+ s.
Proof.
  intros Hsep. induction n as [|n IH]; intros s cur Hlen.
  - destruct s; [|simpl in Hlen; lia]. simpl. rewrite append_nil_r. reflexivity.
  - destruct s as [|c s]; [simpl; rewrite append_nil_r; reflexivity|].
    destruct (String.prefix sep (String c s)) eqn:Hp.
    + apply prefix_inv in Hp as [q Hq]. rewrite Hq, splitFrom_match by exact Hsep.
      assert (Hq_len : String.length q <= n).
      { apply (f_equal String.length) in Hq. rewrite length_append in Hq.
        destruct sep; [contradiction|]. simpl in *. lia. }
      pose proof (IH q "" Hq_len) as Hrest.
      pose proof (splitFrom_length sep q 0 "") as Hne.
      destruct (Go.splitFrom sep 0 "" q) as [|y l]; [simpl in Hne; lia|].
      rewrite Join_cons, Hrest. reflexivity.
    + cbn [Go.splitFrom]. rewrite Hp, IH by (simpl in Hlen; lia).
      rewrite append_assoc. reflexivity.
Qed.

Lemma Join_Split (s sep : string) : sep <> "" -> Go.Join (Go.Split s sep) sep = s.
Proof. intros Hsep. apply (Join_splitFrom sep Hsep (String.length s) s ""). lia. Qed.

(** A first piece without the separator's first byte ends at the first
    separator. *)
Lemma splitFrom_first c (sep' rest : string) : forall d cur,
  Go.countByte c d = 0 ->
  Go.splitFrom (String c sep') 0 cur (d +:+ String c sep' +:+ rest)
  = (cur +:+ d) :: Go.splitFrom (String c sep') 0 "" rest.
Proof.
  induction d as [|x d IH]; intros cur Hd.
  - rewrite append_nil_r.
    change ("" +:+ String c sep' +:+ rest) with (String c sep' +:+ rest).
    apply (splitFrom_match (String c sep') cur rest). discriminate.
  - simpl in Hd. destruct (bool_decide_reflect (c = x)) as [|Hne]; [lia|].
    change (String x d +:+ String c sep' +:+ rest)
      with (String x (d +:+ String c sep' +:+ rest)).
    cbn [Go.splitFrom]. rewrite (prefix_other_head c x) by exact Hne.
    rewrite IH by lia. rewrite append_assoc. reflexivity.
Qed.

(** ** [Instantiate] *)

Definition startUpCalls (dialect source : string) (enableLog : bool) : list GormCall :=
  [CallOpen dialect source; CallSingularTable true; CallLogMode enableLog;
   CallAddNamingStrategy;
   CallRegisterBeforeCreate "gorm:before_create" "before_create_callback"].

Definition noProcess : Process := mkProcess None [].

Definition openAll : string -> string -> Go.error := fun _ _ => None.

(** X1: a call of [Instantiate] that returns has set [Singleton], which
    was nil before, and from then on every call panics with "orm has
    been instantiated" and changes nothing, whatever its arguments; a
    call that panics leaves [Singleton] as it was. *)
Theorem Instantiate_only_once open p dsn enableLog p' :
  (Instantiate open p dsn enableLog = (None, p') ->
   Singleton p = None
   /\ is_Some (Singleton p')
   /\ forall open' dsn' enableLog',
        Instantiate open' p' dsn' enableLog'
        = (Some (PanicMessage "orm has been instantiated"), p'))
  /\ (forall panic,
        Instantiate open p dsn enableLog = (Some panic, p') ->
        Singleton p' = Singleton p).
Proof.
  unfold Instantiate. destruct (Singleton p) as [conn|] eqn:Hs.
  - split; [discriminate|]. intros panic [= _ <-]. exact Hs.
  - destruct (Go.Split dsn "://" !! 0) as [dialect|]; [|split; [discriminate|]].
    + destruct (Go.Split dsn "://" !! 1) as [source|]; [|split; [discriminate|]].
      * destruct (open dialect source) as [err|].
        -- split; [discriminate|]. intros panic [= _ <-]. reflexivity.
        -- split; [|discriminate]. intros [= <-]. split; [reflexivity|].
           split; [eexists; reflexivity|]. reflexivity.
      * intros panic [= _ <-]. exact Hs.
    + intros panic [= _ <-]. exact Hs.
Qed.

Lemma Instantiate_only_once_witness :
  exists p',
    Instantiate openAll noProcess "sqlite3://orm.db" true = (None, p')
    /\ Instantiate openAll p' "mysql://root@/orm" false
       = (Some (PanicMessage "orm has been instantiated"), p').
Proof.
  eexists. split; [reflexivity|].
  destruct (Instantiate_only_once openAll noProcess "sqlite3://orm.db" true
              (snd (Instantiate openAll noProcess "sqlite3://orm.db" true))) as [H _].
  destruct (H eq_refl) as (_ & _ & Hagain). apply Hagain.
Defined.

(** X2: before the first successful call, [Instantiate] panics on an
    index out of range exactly when the DSN holds no "://", and then it
    has asked nothing of gorm: [gorm.Open] is not reached. *)
Theorem Instantiate_needs_separator open p dsn enableLog :
  Singleton p = None ->
  ((exists index len,
      fst (Instantiate open p dsn enableLog) = Some (PanicIndexOutOfRange index len))
   <-> ~ contains "://" dsn)
  /\ (~ contains "://" dsn ->
      Instantiate open p dsn enableLog = (Some (PanicIndexOutOfRange 1 1), p)).
Proof.
  intros Hs.
  assert (Habsent : ~ contains "://" dsn ->
            Instantiate open p dsn enableLog = (Some (PanicIndexOutOfRange 1 1), p)).
  { intros Hno. unfold Instantiate, Go.Split. rewrite Hs.
    rewrite (splitFrom_absent "://" dsn "" Hno). reflexivity. }
  split; [|exact Habsent]. split.
  - intros (index & len & Hpanic) Hin.
    pose proof (splitFrom_present "://" dsn "" ltac:(discriminate) Hin) as Hlen.
    unfold Instantiate, Go.Split in Hpanic. rewrite Hs in Hpanic.
    destruct (Go.splitFrom "://" 0 "" dsn) as [|dialect [|source pieces]];
      simpl in Hlen; try lia.
    simpl in Hpanic. destruct (open dialect source); discriminate Hpanic.
  - intros Hno. rewrite (Habsent Hno). eauto.
Qed.

Lemma Instantiate_needs_separator_witness :
  Instantiate openAll noProcess "orm.db" true
  = (Some (PanicIndexOutOfRange 1 1), noProcess).
Proof.
  apply (proj2 (Instantiate_needs_separator openAll noProcess "orm.db" true eq_refl)).
  intros (p & q & H).
  assert (Hlen : 2 <= length (Go.Split "orm.db" "://")).
  { apply splitFrom_present; [discriminate | exists p, q; exact H]. }
  vm_compute in Hlen. lia.
Defined.

(** X3: for a DSN that starts with a dialect without a colon followed
    by "://", [gorm.Open] is called with that dialect and with the text
    up to the next "://", or the whole rest when there is none: what
    follows a second "://" is not passed on. A failing [Open] makes
    [Instantiate] panic with its message and leaves [Singleton] nil; on
    success the other set-up calls follow in order and [Singleton] is
    set. *)
Theorem Instantiate_opens_dialect_and_source open p dialect rest enableLog :
  Singleton p = None ->
  Go.countByte ":" dialect = 0 ->
  exists source pieces,
    Go.Split rest "://" = source :: pieces
    /\ rest = Go.Join (source :: pieces) "://"
    /\ (~ contains "://" rest -> source = rest /\ pieces = [])
    /\ (contains "://" rest -> exists tail, rest = source +:+ "://" +:+ tail)
    /\ Instantiate open p (dialect +:+ "://" +:+ rest) enableLog
       = match open dialect source with
         | Some err =>
             (Some (PanicMessage err),
              mkProcess None (gormCalls p ++ [CallOpen dialect source]))
         | None =>
             (None,
              mkProcess (Some (dialect, source))
                (gormCalls p ++ startUpCalls dialect source enableLog))
         end.
Proof.
  intros Hs Hdialect.
  pose proof (splitFrom_length "://" rest 0 "") as Hne.
  destruct (Go.Split rest "://") as [|source pieces] eqn:Hsplit;
    [unfold Go.Split in Hsplit; rewrite Hsplit in Hne; simpl in Hne; lia|].
  exists source, pieces. split; [reflexivity|].
  pose proof (Join_Split rest "://" ltac:(discriminate)) as Hjoin.
  rewrite Hsplit in Hjoin.
  split; [symmetry; exact Hjoin|]. split; [|split].
  - intros Hno. unfold Go.Split in Hsplit.
    rewrite (splitFrom_absent "://" rest "" Hno) in Hsplit.
    injection Hsplit as <- <-. split; reflexivity.
  - intros Hin. pose proof (splitFrom_present "://" rest "" ltac:(discriminate) Hin) as Hlen.
    unfold Go.Split in Hsplit. rewrite Hsplit in Hlen.
    destruct pieces as [|y l]; [simpl in Hlen; lia|].
    exists (Go.Join (y :: l) "://"). rewrite <- Hjoin at 1. apply Join_cons.
  - unfold Instantiate, Go.Split. rewrite Hs.
    rewrite (splitFrom_first ":" "//" rest dialect "" Hdialect).
    unfold Go.Split in Hsplit. rewrite Hsplit.
    change ("" +:+ dialect) with dialect. cbn [lookup list_lookup].
    destruct (open dialect source); [reflexivity|].
    unfold startUpCalls. rewrite <- app_assoc. reflexivity.
Qed.

Lemma Instantiate_opens_dialect_and_source_witness :
  Instantiate openAll noProcess "mysql://root:pw@tcp(db:3306)/orm" false
  = (None,
     mkProcess (Some ("mysql", "root:pw@tcp(db:3306)/orm"))
       (startUpCalls "mysql" "root:pw@tcp(db:3306)/orm" false)).
Proof.
  destruct (Instantiate_opens_dialect_and_source openAll noProcess "mysql"
              "root:pw@tcp(db:3306)/orm" false eq_refl eq_refl)
    as (source & pieces & Hsplit & _ & _ & _ & Hrun).
  vm_compute in Hsplit. injection Hsplit as <- <-. exact Hrun.
Defined.

(** ** The guard beyond one call *)

(** X4: [Commit] issues one commit on the session and nothing else. It
    panics exactly when the session then carries an error and [noPanic]
    is absent or starts with false; the panic carries that error and the
    guard is not marked committed by it. Only the first element of
    [noPanic] is read. *)
Theorem Commit_panics_iff drv tx noPanic :
  issued (DB (snd (Commit drv tx noPanic))) = issued (DB tx) ++ [CallCommit]
  /\ ((exists msg, fst (Commit drv tx noPanic) = Panics msg)
      <-> is_Some (Error (issue drv CallCommit (DB tx)))
          /\ default false (head noPanic) = false)
  /\ (forall msg,
        fst (Commit drv tx noPanic) = Panics msg ->
        Error (issue drv CallCommit (DB tx)) = Some msg
        /\ committed (snd (Commit drv tx noPanic)) = committed tx)
  /\ Commit drv tx noPanic = Commit drv tx (take 1 noPanic).
Proof.
  assert (Htake : Commit drv tx noPanic = Commit drv tx (take 1 noPanic)).
  { unfold Commit. destruct noPanic as [|b rest]; [reflexivity|].
    destruct (Error (issue drv CallCommit (DB tx))); reflexivity. }
  pose proof (Commit_cases drv tx noPanic) as Hc. cbv zeta in Hc.
  destruct (Error (issue drv CallCommit (DB tx))) as [e|].
  - destruct noPanic as [|[|] rest]; rewrite Hc in *; simpl.
    + split; [reflexivity|]. split; [|split; [|exact Htake]].
      * split; [intros _; split; [eauto | reflexivity] | intros _; eauto].
      * intros msg [= <-]. split; reflexivity.
    + split; [reflexivity|]. split; [|split; [|exact Htake]].
      * split; [intros [msg Hm]; discriminate Hm | intros [_ Hf]; discriminate Hf].
      * intros msg Hm. discriminate Hm.
    + split; [reflexivity|]. split; [|split; [|exact Htake]].
      * split; [intros _; split; [eauto | reflexivity] | intros _; eauto].
      * intros msg [= <-]. split; reflexivity.
  - rewrite Hc in *. simpl. split; [reflexivity|]. split; [|split; [|exact Htake]].
    + split; [intros [msg Hm]; discriminate Hm | intros [[e He'] _]; discriminate He'].
    + intros msg Hm. discriminate Hm.
Qed.

Lemma Commit_panics_iff_witness :
  fst (Commit failingCommit (Begin failingCommit freshSession) [false; true])
  = Panics "commit failed".
Proof.
  destruct (Commit_panics_iff failingCommit (Begin failingCommit freshSession) [false; true])
    as (_ & [_ Hpanic] & Hmsg & _).
  destruct (Hpanic (conj (ex_intro _ "commit failed" eq_refl) eq_refl)) as [msg Hm].
  rewrite Hm. f_equal. destruct (Hmsg msg Hm) as [He _].
  injection He as <-. reflexivity.
Defined.

(** What a caller can do with a guard. A [Commit] that panics leaves the
    guard as it is at the panic, and calls deferred by the caller, such
    as [End], still run after it. *)
Inductive GuardOp :=
| OpEnd
| OpCommit (noPanic : list bool).

Definition isEnd (op : GuardOp) : bool :=
  match op with OpEnd => true | OpCommit _ => false end.

Definition step (drv : Driver) (tx : TX) (op : GuardOp) : TX :=
  match op with
  | OpEnd => End drv tx
  | OpCommit noPanic => snd (Commit drv tx noPanic)
  end.

Definition run (drv : Driver) (ops : list GuardOp) (tx : TX) : TX :=
  fold_left (step drv) ops tx.

(** How often a commit was issued on a session. *)
Definition commits (s : Session) : nat :=
  length (filter (fun c => c = CallCommit) (issued s)).

Lemma commits_issue drv c s :
  commits (issue drv c s) = commits s + (if decide (c = CallCommit) then 1 else 0).
Proof.
  unfold commits, issue; simpl.
  rewrite filter_app, length_app. f_equal.
  rewrite filter_cons, filter_nil.
  destruct (decide (c = CallCommit)); reflexivity.
Qed.

Lemma step_counts drv tx op :
  (committed tx = true -> committed (step drv tx op) = true)
  /\ rollbacks (DB (step drv tx op))
     = rollbacks (DB tx) + (if isEnd op && negb (committed tx) then 1 else 0)
  /\ commits (DB (step drv tx op))
     = commits (DB tx) + (if isEnd op then 0 else 1).
Proof.
  destruct op as [|noPanic]; simpl.
  - unfold End. destruct (committed tx) eqn:Hc; simpl.
    + rewrite Hc. split; [reflexivity|]. split; lia.
    + split; [discriminate|]. rewrite rollbacks_issue, commits_issue.
      split; repeat destruct (decide _); try discriminate; try congruence; lia.
  - pose proof (Commit_cases drv tx noPanic) as Hc. cbv zeta in Hc.
    destruct (Error (issue drv CallCommit (DB tx))) as [e|].
    + assert (Hsnd : snd (Commit drv tx noPanic)
                     = mkTX (issue drv CallCommit (DB tx)) (committed tx)).
      { destruct noPanic as [|[|] rest]; rewrite Hc; reflexivity. }
      rewrite Hsnd. simpl. rewrite rollbacks_issue, commits_issue.
      split; [tauto|].
      split; repeat destruct (decide _); try discriminate; try congruence; lia.
    + rewrite Hc. simpl. rewrite rollbacks_issue, commits_issue.
      split; [reflexivity|].
      split; repeat destruct (decide _); try discriminate; try congruence; lia.
Qed.

(** X5: over any sequence of [End] and [Commit] calls on a guard, the
    committed mark is never taken back and, once it is set, no rollback
    is issued any more; rollbacks are issued by [End] only, at most one
    per call, and every [Commit] call issues exactly one commit. *)
Theorem guard_never_rolls_back_after_commit drv ops tx :
  (committed tx = true ->
   committed (run drv ops tx) = true
   /\ rollbacks (DB (run drv ops tx)) = rollbacks (DB tx))
  /\ rollbacks (DB tx) <= rollbacks (DB (run drv ops tx))
     <= rollbacks (DB tx) + length (filter (fun op => isEnd op = true) ops)
  /\ commits (DB (run drv ops tx))
     = commits (DB tx) + length (filter (fun op => isEnd op = false) ops).
Proof.
  revert tx. induction ops as [|op ops IH]; intros tx.
  - simpl. split; [tauto|]. split; lia.
  - cbn [run fold_left]. fold (run drv ops (step drv tx op)).
    destruct (IH (step drv tx op)) as (Hkeep & Hroll & Hcommit).
    destruct (step_counts drv tx op) as (Hk1 & Hr1 & Hc1).
    rewrite !filter_cons. split; [|split].
    + intros Hc. destruct (Hkeep (Hk1 Hc)) as [Hk Hr]. split; [exact Hk|].
      rewrite Hr, Hr1, Hc. simpl. rewrite andb_false_r. lia.
    + destruct (isEnd op) eqn:Hop; destruct (committed tx);
        simpl in *; repeat case_decide; try congruence; simpl; lia.
    + destruct (isEnd op) eqn:Hop; repeat case_decide; try congruence; simpl; lia.
Qed.

Lemma guard_never_rolls_back_after_commit_witness :
  let tx := snd (Commit quietDriver (Begin quietDriver freshSession) []) in
  committed (run quietDriver [OpEnd; OpCommit [true]; OpEnd] tx) = true
  /\ rollbacks (DB (run quietDriver [OpEnd; OpCommit [true]; OpEnd] tx)) = 0.
Proof.
  intros tx.
  destruct (guard_never_rolls_back_after_commit quietDriver
              [OpEnd; OpCommit [true]; OpEnd] tx) as [H _].
  exact (H eq_refl).
Defined.

(** ** [IsRecordNotFound] *)

Lemma isErrRecordNotFound_true err :
  isErrRecordNotFound err = true <-> err = Some ErrRecordNotFound.
Proof.
  destruct err as [[| |]|]; simpl; split; congruence.
Qed.

Lemma anyRecordNotFound_true errors :
  anyRecordNotFound errors = true <-> Some ErrRecordNotFound ∈ errors.
Proof.
  induction errors as [|err errors IH]; simpl.
  - split; [discriminate | intros H; inversion H].
  - rewrite elem_of_cons. destruct (isErrRecordNotFound err) eqn:Herr.
    + apply isErrRecordNotFound_true in Herr. split; [intros _; left; congruence | reflexivity].
    + rewrite IH. split; [tauto|]. intros [Heq|Hin]; [|exact Hin].
      symmetry in Heq. apply isErrRecordNotFound_true in Heq. congruence.
Qed.

(** X6: [IsRecordNotFound] holds of the sentinel itself and of a
    [gorm.Errors] value with the sentinel among its elements, and of
    nothing else: not of nil, not of another error with whatever
    message, and not of an error list that holds the sentinel only
    inside a nested list. *)
Theorem IsRecordNotFound_iff err :
  IsRecordNotFound err = true
  <-> err = Some ErrRecordNotFound
      \/ exists errors, err = Some (Errors errors) /\ Some ErrRecordNotFound ∈ errors.
Proof.
  unfold IsRecordNotFound. destruct err as [[|errors|msg]|]; simpl.
  - split; [intros _; left; reflexivity | reflexivity].
  - destruct (anyRecordNotFound errors) eqn:Hany.
    + apply anyRecordNotFound_true in Hany. split; [intros _; right; eauto | reflexivity].
    + split; [discriminate|]. intros [H|(errors' & [= <-] & Hin)]; [discriminate H|].
      apply anyRecordNotFound_true in Hin. congruence.
  - split; [discriminate|]. intros [H|(errors & H & _)]; discriminate H.
  - split; [discriminate|]. intros [H|(errors & H & _)]; discriminate H.
Qed.

(** ** The create callback before and after the blank test *)

(** X7: the earlier callback sets ID on a live table exactly when the
    scope has a column ID, and does not look at the primary field, so it
    also replaces an identifier that is already set; the later callback
    never does. On a soft-delete table the two agree. *)
Theorem presence_callback_overwrites xidNew now scope :
  (Go.HasSuffix (TableName scope) "deleted" = true ->
   beforeCreateCallback_presence xidNew now scope = beforeCreateCallback xidNew now scope)
  /\ (Go.HasSuffix (TableName scope) "deleted" = false ->
      (beforeCreateCallback_presence xidNew now scope = [SetColumn "ID" (VStr xidNew)]
       <-> HasColumn scope "ID" = true)
      /\ (HasColumn scope "ID" = false ->
          beforeCreateCallback_presence xidNew now scope = [])
      /\ (forall pf,
            PrimaryField scope = Some pf -> IsBlank pf = false ->
            HasColumn scope "ID" = true ->
            beforeCreateCallback_presence xidNew now scope = [SetColumn "ID" (VStr xidNew)]
            /\ beforeCreateCallback xidNew now scope = []))
  /\ (forall primary,
        beforeCreateCallback_presence xidNew now
          (mkScope (TableName scope) primary (HasColumn scope))
        = beforeCreateCallback_presence xidNew now scope).
Proof.
  split; [|split].
  - intros Hdel. unfold beforeCreateCallback_presence, beforeCreateCallback.
    rewrite Hdel. reflexivity.
  - intros Hlive.
    pose proof (beforeCreate_assigns_blank_ID xidNew now scope Hlive) as (_ & _ & Hset).
    unfold beforeCreateCallback_presence. rewrite Hlive. simpl.
    destruct (HasColumn scope "ID").
    + split; [tauto|]. split; [discriminate|].
      intros pf Hpf Hblank _. split; [reflexivity | exact (Hset pf Hpf Hblank)].
    + split; [split; discriminate|]. split; [reflexivity|]. discriminate.
  - reflexivity.
Qed.

Lemma presence_callback_overwrites_witness :
  let pf := mkField "ID" "ID" true false false false false ∅ (VStr "b9s2a1h5vkc0") in
  let scope := mkScope "user" (Some pf) (fun column => bool_decide (column = "ID")) in
  beforeCreateCallback_presence "c0aa1b2c3d4e" 0 scope = [SetColumn "ID" (VStr "c0aa1b2c3d4e")]
  /\ beforeCreateCallback "c0aa1b2c3d4e" 0 scope = [].
Proof.
  intros pf scope.
  destruct (presence_callback_overwrites "c0aa1b2c3d4e" 0 scope) as (_ & Hlive & _).
  destruct (Hlive eq_refl) as (_ & _ & Hset).
  exact (Hset pf eq_refl eq_refl eq_refl).
Defined.

End orm_extra.

(** * Further properties of the bulk-insert engine *)

Module bulk_insert_extra.
Import gorm bulk_insert bulk_insert_props.

(** ** The values [extractMapValue] binds *)

(** The test of line 157. *)
Definition isTimestamp (field : Field) : bool :=
  bool_decide (Name field = "CreatedAt") || bool_decide (Name field = "UpdatedAt").

(** The value lines 157 to 168 bind for a field, when the clock was read
    [k] times before. *)
Definition boundValue (E : Collaborator) (k : nat) (field : Field) : Value :=
  if isTimestamp field then VTime (Now E k)
  else if HasDefaultValue field && IsBlank field then
    match TagSettingsGet field "DEFAULT" with
    | Some val => VStr val
    | None => FieldValue field
    end
  else FieldValue field.

(** The inserted timestamp fields of a record: the readings of the
    clock one extraction makes. *)
Definition clockReadings (excl : list string) (fields : list Field) : nat :=
  length (filter (fun f => isInsertColumn excl f && isTimestamp f = true) fields).

Section values.
Variable E : Collaborator.

Lemma extractField_kept excl attrs t field :
  isInsertColumn excl field = true ->
  extractField E excl (attrs, t) field
  = (<[DBName field := boundValue E t field]> attrs,
     t + (if isTimestamp field then 1 else 0)).
Proof.
  intros Hkept. unfold extractField, boundValue, isTimestamp. rewrite Hkept.
  destruct (_ || _); [f_equal; lia|].
  rewrite Nat.add_0_r.
  destruct (_ && _); [|reflexivity].
  destruct (TagSettingsGet field "DEFAULT"); reflexivity.
Qed.

Lemma extractField_dropped excl acc field :
  isInsertColumn excl field = false -> extractField E excl acc field = acc.
Proof. intros Hdrop. destruct acc. unfold extractField. rewrite Hdrop. reflexivity. Qed.

Lemma extractFields_ticks excl fields : forall attrs t,
  (fold_left (extractField E excl) fields (attrs, t)).2 = t + clockReadings excl fields.
Proof.
  unfold clockReadings.
  induction fields as [|f fields IH]; intros attrs t; [simpl; lia|].
  cbn [fold_left]. rewrite filter_cons.
  destruct (isInsertColumn excl f) eqn:Hf.
  - rewrite (extractField_kept excl attrs t f Hf), IH.
    destruct (isTimestamp f); case_decide; simpl in *; try congruence; lia.
  - rewrite (extractField_dropped excl (attrs, t) f Hf), IH.
    case_decide; simpl in *; try congruence; lia.
Qed.

(** Later fields leave a column alone unless one of them is inserted
    under it. *)
Lemma extractFields_untouched excl k fields : forall attrs t,
  (forall g, g ∈ fields -> isInsertColumn excl g = true -> DBName g <> k) ->
  (fold_left (extractField E excl) fields (attrs, t)).1 !! k = attrs !! k.
Proof.
  induction fields as [|f fields IH]; intros attrs t Hother; [reflexivity|].
  cbn [fold_left]. destruct (isInsertColumn excl f) eqn:Hf.
  - rewrite (extractField_kept excl attrs t f Hf).
    rewrite IH by (intros g Hg; apply Hother; right; exact Hg).
    apply lookup_insert_ne. apply Hother; [left | exact Hf].
  - rewrite (extractField_dropped excl (attrs, t) f Hf).
    apply IH. intros g Hg. apply Hother. right. exact Hg.
Qed.

Lemma extractFields_app excl pre post acc :
  fold_left (extractField E excl) (pre ++ post) acc
  = fold_left (extractField E excl) post (fold_left (extractField E excl) pre acc).
Proof. apply fold_left_app. Qed.

Lemma clockReadings_app excl pre post :
  clockReadings excl (pre ++ post) = clockReadings excl pre + clockReadings excl post.
Proof. unfold clockReadings. rewrite filter_app, length_app. reflexivity. Qed.

End values.

(** X8: in the mapping of a struct, the value under the column of an
    inserted field (the last one, should several fields share the column)
    is the clock's reading for a field called CreatedAt or UpdatedAt,
    whatever the field holds; else the DEFAULT tag, as a string, for a
    blank field that has a default value and carries the tag; else the
    field's own value. The clock is read once for each inserted
    timestamp field, in field order, and never otherwise. *)
Theorem extractMapValue_values E excl table pre field post t :
  isInsertColumn excl field = true ->
  (forall g, g ∈ post -> isInsertColumn excl g = true -> DBName g <> DBName field) ->
  exists attrs,
    extractMapValue E (Struct table (pre ++ field :: post)) excl t
    = (Ok attrs, t + clockReadings excl (pre ++ field :: post))
    /\ attrs !! DBName field
       = Some (boundValue E (t + clockReadings excl pre) field)
    /\ (isTimestamp field = true ->
        attrs !! DBName field = Some (VTime (Now E (t + clockReadings excl pre))))
    /\ (isTimestamp field = false ->
        forall val,
          HasDefaultValue field = true -> IsBlank field = true ->
          TagSettingsGet field "DEFAULT" = Some val ->
          attrs !! DBName field = Some (VStr val))
    /\ (isTimestamp field = false ->
        HasDefaultValue field && IsBlank field = false
        \/ TagSettingsGet field "DEFAULT" = None ->
        attrs !! DBName field = Some (FieldValue field)).
Proof.
  intros Hkept Hlast. unfold extractMapValue.
  destruct (fold_left (extractField E excl) (pre ++ field :: post) (∅, t))
    as [attrs t'] eqn:Hfold.
  exists attrs.
  pose proof (extractFields_ticks E excl (pre ++ field :: post) ∅ t) as Hticks.
  rewrite Hfold in Hticks. simpl in Hticks. subst t'.
  split; [reflexivity|].
  assert (Hvalue : attrs !! DBName field
                   = Some (boundValue E (t + clockReadings excl pre) field)).
  { change attrs with (attrs, t + clockReadings excl (pre ++ field :: post)).1.
    rewrite <- Hfold, extractFields_app. cbn [fold_left].
    destruct (fold_left (extractField E excl) pre (∅, t)) as [attrs1 t1] eqn:Hpre.
    pose proof (extractFields_ticks E excl pre ∅ t) as Ht1.
    rewrite Hpre in Ht1. simpl in Ht1. subst t1.
    rewrite (extractField_kept E excl attrs1 _ field Hkept).
    rewrite extractFields_untouched by exact Hlast.
    apply lookup_insert_eq. }
  split; [exact Hvalue|]. unfold boundValue in Hvalue. split; [|split].
  - intros Hts. rewrite Hts in Hvalue. exact Hvalue.
  - intros Hts val Hdef Hblank Htag.
    rewrite Hts, Hdef, Hblank, Htag in Hvalue. exact Hvalue.
  - intros Hts Hplain. rewrite Hts in Hvalue.
    destruct Hplain as [Hplain|Htag].
    + rewrite Hplain in Hvalue. exact Hvalue.
    + rewrite Htag in Hvalue. destruct (_ && _); exact Hvalue.
Qed.

Definition stamped : list Field :=
  [plainField "CreatedAt" "created_at" (VTime 7);
   mkField "State" "state" false false true false true {["DEFAULT" := "new"]} (VStr "");
   plainField "UpdatedAt" "updated_at" VNil].

Lemma extractMapValue_values_witness :
  exists attrs,
    extractMapValue backtick (Struct "job" stamped) [] 40 = (Ok attrs, 42)
    /\ attrs !! "state" = Some (VStr "new")
    /\ attrs !! "updated_at" = Some (VTime 41).
Proof.
  destruct (extractMapValue_values backtick [] "job"
              [plainField "CreatedAt" "created_at" (VTime 7)]
              (mkField "State" "state" false false true false true
                       {["DEFAULT" := "new"]} (VStr ""))
              [plainField "UpdatedAt" "updated_at" VNil] 40)
    as (attrs & Hrun & _ & _ & Hdefault & _).
  { vm_compute. reflexivity. }
  { intros g Hg _. apply list_elem_of_singleton in Hg as ->. discriminate. }
  destruct (extractMapValue_values backtick [] "job"
              [plainField "CreatedAt" "created_at" (VTime 7);
               mkField "State" "state" false false true false true
                       {["DEFAULT" := "new"]} (VStr "")]
              (plainField "UpdatedAt" "updated_at" VNil) [] 40)
    as (attrs' & Hrun' & _ & Hstamp & _).
  { vm_compute. reflexivity. }
  { intros g Hg. inversion Hg. }
  exists attrs. split; [exact Hrun|]. split.
  - apply (Hdefault eq_refl "new"); [reflexivity | reflexivity |].
    vm_compute. reflexivity.
  - change (([plainField "CreatedAt" "created_at" (VTime 7);
              mkField "State" "state" false false true false true
                      {["DEFAULT" := "new"]} (VStr "")]
             ++ plainField "UpdatedAt" "updated_at" VNil :: []))
      with ([plainField "CreatedAt" "created_at" (VTime 7)]
            ++ mkField "State" "state" false false true false true
                       {["DEFAULT" := "new"]} (VStr "")
               :: [plainField "UpdatedAt" "updated_at" VNil]) in Hrun'.
    rewrite Hrun in Hrun'. injection Hrun' as <-. exact (Hstamp eq_refl).
Defined.

(** ** Exclusion and the clock *)

Lemma containString_ext excl excl' name :
  (name ∈ excl <-> name ∈ excl') -> containString excl name = containString excl' name.
Proof.
  rewrite <- !containString_elem_of.
  destruct (containString excl name), (containString excl' name); intuition congruence.
Qed.

Lemma extractFields_ext E excl excl' fields : forall acc,
  (forall f, f ∈ fields -> (Name f ∈ excl <-> Name f ∈ excl')) ->
  fold_left (extractField E excl) fields acc = fold_left (extractField E excl') fields acc.
Proof.
  induction fields as [|f fields IH]; intros acc Hsame; [reflexivity|].
  cbn [fold_left].
  assert (Hf : extractField E excl acc f = extractField E excl' acc f).
  { destruct acc as [attrs t]. unfold extractField, isInsertColumn.
    rewrite (containString_ext excl excl' (Name f)) by (apply Hsame; left).
    reflexivity. }
  rewrite Hf. apply IH. intros g Hg. apply Hsame. right. exact Hg.
Qed.

(** X9: the excluded columns are matched against the Go field names,
    and the mapping depends on the list only through which field names
    of the record it holds: two lists that hold the same field names of
    a record give the same mapping, so a list without any field name of
    the record, even one that lists its database column names, excludes
    nothing. *)
Theorem exclusion_goes_by_field_name E excl excl' table fields t :
  (forall f, f ∈ fields -> (Name f ∈ excl <-> Name f ∈ excl')) ->
  extractMapValue E (Struct table fields) excl t
  = extractMapValue E (Struct table fields) excl' t.
Proof.
  intros Hsame. unfold extractMapValue.
  rewrite (extractFields_ext E excl excl' fields (∅, t) Hsame). reflexivity.
Qed.

Lemma exclusion_goes_by_field_name_witness :
  extractMapValue backtick ann ["name"; "age"] 0 = extractMapValue backtick ann [] 0.
Proof.
  apply exclusion_goes_by_field_name. intros f Hf.
  apply list_elem_of_In in Hf. simpl in Hf.
  split; intros Hin; apply list_elem_of_In in Hin; simpl in Hin;
    intuition (subst; simpl in *; congruence).
Defined.

Lemma extractFields_no_clock E E' excl fields : forall attrs t t',
  clockReadings excl fields = 0 ->
  exists attrs',
    fold_left (extractField E excl) fields (attrs, t) = (attrs', t)
    /\ fold_left (extractField E' excl) fields (attrs, t') = (attrs', t').
Proof.
  induction fields as [|f fields IH]; intros attrs t t' Hnone; [eauto|].
  unfold clockReadings in Hnone. rewrite filter_cons in Hnone.
  cbn [fold_left]. destruct (isInsertColumn excl f) eqn:Hf.
  - destruct (isTimestamp f) eqn:Hts.
    + rewrite decide_True in Hnone by reflexivity. discriminate Hnone.
    + rewrite decide_False in Hnone by discriminate.
      rewrite !(extractField_kept _ excl _ _ f Hf), Hts, !Nat.add_0_r.
      unfold boundValue. rewrite Hts. apply IH. exact Hnone.
  - rewrite decide_False in Hnone by discriminate.
    rewrite !(extractField_dropped _ excl _ f Hf). apply IH. exact Hnone.
Qed.

(** X10: a struct without an inserted CreatedAt or UpdatedAt field is
    extracted without reading the clock, and to the same mapping at any
    time and under any collaborator. *)
Theorem extraction_without_timestamps_ignores_clock E E' excl table fields t t' :
  clockReadings excl fields = 0 ->
  exists attrs,
    extractMapValue E (Struct table fields) excl t = (Ok attrs, t)
    /\ extractMapValue E' (Struct table fields) excl t' = (Ok attrs, t').
Proof.
  intros Hnone. unfold extractMapValue.
  destruct (extractFields_no_clock E E' excl fields ∅ t t' Hnone) as (attrs & -> & ->).
  exists attrs. split; reflexivity.
Qed.

Lemma extraction_without_timestamps_ignores_clock_witness :
  exists attrs,
    extractMapValue backtick ann [] 3 = (Ok attrs, 3)
    /\ extractMapValue refusing ann [] 90 = (Ok attrs, 90).
Proof.
  apply (extraction_without_timestamps_ignores_clock backtick refusing [] "user" annFields).
  vm_compute. reflexivity.
Defined.

(** ** The statement *)

(** X11: the replace option changes the leading keyword of the
    statement and nothing else: with and without it [insertObjSet] reads
    the clock as often and either executes nothing and returns the same
    error, or executes one statement with the same parameters and the
    same text after REPLACE or INSERT. *)
Theorem replace_changes_only_the_keyword E db objects excl :
  ticks (snd (insertObjSet E db objects true excl))
  = ticks (snd (insertObjSet E db objects false excl))
  /\ ((executed (snd (insertObjSet E db objects true excl)) = executed db
       /\ executed (snd (insertObjSet E db objects false excl)) = executed db
       /\ fst (insertObjSet E db objects true excl)
          = fst (insertObjSet E db objects false excl))
      \/ exists tail vars,
           executed (snd (insertObjSet E db objects true excl))
           = executed db ++ [mkStmt ("REPLACE" +:+ tail) vars]
           /\ executed (snd (insertObjSet E db objects false excl))
              = executed db ++ [mkStmt ("INSERT" +:+ tail) vars]
           /\ fst (insertObjSet E db objects true excl)
              = Exec E (executed db) (mkStmt ("REPLACE" +:+ tail) vars)
           /\ fst (insertObjSet E db objects false excl)
              = Exec E (executed db) (mkStmt ("INSERT" +:+ tail) vars)).
Proof.
  unfold insertObjSet. destruct objects as [|first rest]; [split; [|left]; auto|].
  destruct (extractMapValue E first excl (ticks db)) as [[firstAttrs|e] t1];
    [|split; [|left]; auto].
  destruct (insertRows E (first :: rest) excl (size firstAttrs) [] [] t1)
    as [[[placeholders vars]|e] t2]; [|split; [|left]; auto].
  split; [reflexivity|]. right.
  exists (" INTO " +:+ QuotedTableName E (tableOf first) +:+ " ("
          +:+ Go.Join (ToColumnName E <$> sortedKeys firstAttrs) ", "
          +:+ ") VALUES " +:+ Go.Join placeholders ", "), vars.
  repeat split.
Qed.

(** ** Builder options *)

(** The three options a caller can pass. *)
Inductive OptionSpec :=
| SetChunkSize (c : Z)
| SetReplace (r : bool)
| SetExcludeColumns (cols : list string).

Definition toOpt (o : OptionSpec) : BuilderOpt :=
  match o with
  | SetChunkSize c => ChunkSizeOpt c
  | SetReplace r => ReplaceOpt r
  | SetExcludeColumns cols => ExcludeColumnsOpt cols
  end.

Definition chunkSizeOf (o : OptionSpec) : option Z :=
  match o with SetChunkSize c => Some c | _ => None end.

Definition replaceOf (o : OptionSpec) : option bool :=
  match o with SetReplace r => Some r | _ => None end.

Definition excludeColumnsOf (o : OptionSpec) : option (list string) :=
  match o with SetExcludeColumns cols => Some cols | _ => None end.

Lemma NewBuilder_snoc opts opt : NewBuilder (opts ++ [opt]) = opt (NewBuilder opts).
Proof. unfold NewBuilder. rewrite fold_left_app. reflexivity. Qed.

Lemma last_omap_snoc {A B} (f : A -> option B) (l : list A) (x : A) :
  last (omap f (l ++ [x])) = match f x with Some y => Some y | None => last (omap f l) end.
Proof.
  rewrite omap_app. simpl. destruct (f x) as [y|].
  - apply last_snoc.
  - rewrite app_nil_r. reflexivity.
Qed.

Lemma NewBuilder_fields specs :
  chunkSize (NewBuilder (toOpt <$> specs)) = default 2000%Z (last (omap chunkSizeOf specs))
  /\ replace (NewBuilder (toOpt <$> specs)) = default false (last (omap replaceOf specs))
  /\ excludeColumns (NewBuilder (toOpt <$> specs))
     = default [] (last (omap excludeColumnsOf specs)).
Proof.
  induction specs as [|o specs (IHc & IHr & IHe)] using rev_ind; [repeat split|].
  rewrite fmap_app. cbn [fmap list_fmap]. rewrite NewBuilder_snoc, !last_omap_snoc.
  destruct o; simpl; auto.
Qed.

(** X12: [BulkCreate] with a list of options is [BulkInsert] with, for
    each setting, the value of the last option that sets it, and with
    chunk size 2000, INSERT and no excluded column for a setting no
    option sets; options for other settings do not disturb it. *)
Theorem BulkCreate_last_option_wins E db objects specs :
  orm.BulkCreate E db objects (toOpt <$> specs)
  = BulkInsert E db objects
      (default 2000%Z (last (omap chunkSizeOf specs)))
      (default false (last (omap replaceOf specs)))
      (default [] (last (omap excludeColumnsOf specs))).
Proof.
  unfold orm.BulkCreate, Builder_Exec.
  destruct (NewBuilder_fields specs) as (-> & -> & ->). reflexivity.
Qed.

(** ** Where an error of [BulkInsert] comes from *)

(** Every statement of [stmts] was accepted by the database, the
    statements of [done] and the earlier ones of [stmts] having been
    executed before it. *)
Fixpoint allAccepted (E : Collaborator) (done stmts : list Stmt) : Prop :=
  match stmts with
  | [] => True
  | stmt :: rest => Exec E done stmt = None /\ allAccepted E (done ++ [stmt]) rest
  end.

Lemma allAccepted_snoc E stmts : forall done last,
  allAccepted E done stmts -> Exec E (done ++ stmts) last = None ->
  allAccepted E done (stmts ++ [last]).
Proof.
  induction stmts as [|s stmts IH]; intros done last Hall Hlast; simpl in *.
  - rewrite app_nil_r in Hlast. tauto.
  - destruct Hall as [Hs Hall]. split; [exact Hs|].
    apply IH; [exact Hall|]. rewrite <- app_assoc. exact Hlast.
Qed.

(** What the statements added by a run tell about its result. *)
Definition explains (E : Collaborator) (done stmts : list Stmt) (err : Go.error) : Prop :=
  match err with
  | None => allAccepted E done stmts
  | Some e =>
      (allAccepted E done stmts
       /\ (e = "value must be kind of Struct" \/ e = "attribute sizes are inconsistent"))
      \/ exists init last,
           stmts = init ++ [last]
           /\ allAccepted E done init
           /\ Exec E (done ++ init) last = Some e
  end.

Lemma insertChunks_explained E replace excl chunks : forall db err db',
  insertChunks E db chunks replace excl = (err, db') ->
  exists stmts,
    executed db' = executed db ++ stmts /\ explains E (executed db) stmts err.
Proof.
  induction chunks as [|c chunks IH]; intros db err db'.
  - intros [= <- <-]. exists []. rewrite app_nil_r. split; [reflexivity | exact I].
  - cbn [insertChunks].
    destruct (insertObjSet_cases E db c replace excl)
      as [[_ Hrun]|[(e & t & Hrun & He)|Hexec]].
    + rewrite Hrun. apply IH.
    + rewrite Hrun. intros [= <- <-]. exists []. simpl. rewrite app_nil_r.
      split; [reflexivity|]. left. split; [exact I | tauto].
    + destruct Hexec as (first & rest & firstAttrs & t1 & ms & t2 & _ & _ & _ & _ & Hrun).
      rewrite Hrun. set (stmt := builtStatement E replace first firstAttrs ms) in *.
      destruct (Exec E (executed db) stmt) as [e|] eqn:Hexec.
      * intros [= <- <-]. exists [stmt]. split; [reflexivity|].
        right. exists [], stmt. rewrite app_nil_r. split; [reflexivity|].
        split; [exact I | exact Hexec].
      * intros Hrest. destruct (IH _ _ _ Hrest) as (stmts & Hlog & Hwhy).
        exists (stmt :: stmts). simpl in Hlog. rewrite Hlog, <- app_assoc.
        split; [reflexivity|]. simpl in Hwhy. destruct err as [e|]; simpl.
        -- destruct Hwhy as [[Hall Hown]|(init & last & -> & Hall & Hlast)].
           ++ left. tauto.
           ++ right. exists (stmt :: init), last. split; [reflexivity|].
              split; [simpl; tauto|]. rewrite <- app_assoc in Hlast. exact Hlast.
        -- tauto.
Qed.

(** X13: [BulkInsert] returns "objects must be a slice", untouched
    state, for an argument that is not a slice. For a slice it only adds
    statements to those executed before; when it returns nil the
    database accepted every one of them; when it returns an error, that
    error is either the one with which the database answered the last
    added statement, all earlier ones accepted, or one of the engine's
    two own errors, all added statements accepted. *)
Theorem BulkInsert_error_sources E db objects chunkSize replace excl err db' :
  BulkInsert E db objects chunkSize replace excl = (err, db') ->
  (exists o, objects = NotSlice o /\ err = Some "objects must be a slice" /\ db' = db)
  \/ (exists elems stmts,
        objects = SliceOf elems
        /\ executed db' = executed db ++ stmts
        /\ explains E (executed db) stmts err).
Proof.
  destruct objects as [elems|o]; simpl.
  - intros Hrun. right.
    destruct (insertChunks_explained E replace excl _ _ _ _ Hrun) as (stmts & Hlog & Hwhy).
    exists elems, stmts. auto.
  - intros [= <- <-]. left. exists o. auto.
Qed.

Lemma BulkInsert_error_sources_witness :
  exists first second,
    executed (snd (BulkInsert droppingSecond (mkWorld 0 []) (SliceOf fiveAnns) 2 false []))
    = [first; second]
    /\ Exec droppingSecond [] first = None
    /\ Exec droppingSecond [first] second = Some "connection lost".
Proof.
  destruct (BulkInsert_error_sources droppingSecond (mkWorld 0 []) (SliceOf fiveAnns) 2
              false [] (Some "connection lost")
              (snd (BulkInsert droppingSecond (mkWorld 0 []) (SliceOf fiveAnns) 2 false [])))
    as [(o & Ho & _)|(elems & stmts & _ & Hlog & Hwhy)].
  - vm_compute. reflexivity.
  - discriminate Ho.
  - simpl in Hwhy. destruct Hwhy as [[_ [He|He]]|(init & last & -> & Hall & Hlast)];
      [discriminate He | discriminate He |].
    assert (Hlen : length (init ++ [last]) = 2).
    { simpl in Hlog. rewrite <- Hlog. vm_compute. reflexivity. }
    rewrite length_app in Hlen.
    destruct init as [|first [|x init]]; simpl in Hlen; try lia.
    exists first, last. split; [exact Hlog|]. simpl in Hall. tauto.
Defined.

(** ** Batches of one shape *)

Lemma extractAll_structs E excl objects : forall t,
  Forall (fun obj => is_Some (mappingSize excl obj)) objects ->
  exists ms t', extractAll E objects excl t = (Ok ms, t').
Proof.
  induction objects as [|obj rest IH]; intros t Hall; [simpl; eauto|].
  apply Forall_cons in Hall as [[n Hobj] Hall].
  destruct (extractMapValue_struct E obj excl t n Hobj) as (m & t1 & Hm & _).
  destruct (IH t1 Hall) as (ms & t2 & Hms).
  exists (m :: ms), t2. simpl. rewrite Hm, Hms. reflexivity.
Qed.

(** X14: a batch of structs that all have the same inserted columns,
    such as a slice of one struct type, never meets the size error:
    [insertObjSet] executes one statement and returns the database's
    answer. The statement's columns are those columns in ascending order
    and every row's parameters are that row's values for these columns,
    in this order. *)
Theorem same_columns_batch_is_aligned E db first rest replace excl cols :
  Forall (fun obj => exists table fields,
            obj = Struct table fields /\ columnsOf excl fields = cols) (first :: rest) ->
  exists firstAttrs t1 ms t2 stmt,
    extractMapValue E first excl (ticks db) = (Ok firstAttrs, t1)
    /\ extractAll E (first :: rest) excl t1 = (Ok ms, t2)
    /\ insertObjSet E db (first :: rest) replace excl
       = (Exec E (executed db) stmt, mkWorld t2 (executed db ++ [stmt]))
    /\ SQL stmt
       = statementText E replace (tableOf first)
           (ToColumnName E <$> sortedKeys firstAttrs)
           (replicate (length (first :: rest)) (placeholderGroup (size cols)))
    /\ Sorted Go.strLe (sortedKeys firstAttrs)
    /\ (forall k, k ∈ sortedKeys firstAttrs <-> k ∈ cols)
    /\ SQLVars stmt = concat (rowVars <$> ms)
    /\ length ms = length (first :: rest)
    /\ Forall (fun m => dom m = cols
                        /\ boundAt (sortedKeys firstAttrs) m (rowVars m)) ms.
Proof.
  intros Hshape.
  assert (Hstructs : Forall (fun obj => is_Some (mappingSize excl obj)) (first :: rest)).
  { eapply Forall_impl; [exact Hshape|]. intros obj (table & fields & -> & _).
    simpl. eauto. }
  pose proof Hshape as Hfirst. apply Forall_cons in Hfirst as [(table & fields & -> & Hcols) _].
  destruct (extractMapValue_Struct E excl table fields (ticks db))
    as (firstAttrs & t1 & Hextract & Hdom).
  destruct (extractAll_structs E excl _ t1 Hstructs) as (ms & t2 & Hall).
  assert (Hdoms : Forall (fun m => dom m = cols) ms).
  { pose proof (extractAll_dom E _ _ _ _ _ Hall) as Hpairs.
    clear Hall Hstructs. revert Hshape Hpairs.
    generalize (Struct table fields :: rest). intros objects Hshape Hpairs.
    induction Hpairs as [|obj m objects ms (tb & fs & -> & Hm) _ IH]; [constructor|].
    apply Forall_cons in Hshape as [(tb' & fs' & [= <- <-] & Hc) Hshape].
    constructor; [congruence | exact (IH Hshape)]. }
  assert (Hsizes : Forall (fun m => size m = size firstAttrs) ms).
  { eapply Forall_impl; [exact Hdoms|]. intros m Hm. simpl in Hm.
    rewrite <- (size_dom (D := gset string) m), <- (size_dom (D := gset string) firstAttrs).
    congruence. }
  assert (Hsize : size firstAttrs = size cols).
  { rewrite <- (size_dom (D := gset string) firstAttrs). congruence. }
  exists firstAttrs, t1, ms, t2, (builtStatement E replace (Struct table fields) firstAttrs ms).
  split; [exact Hextract|]. split; [exact Hall|].
  split; [apply (insertObjSet_executes E _ _ _ _ _ _ t1); assumption|].
  pose proof (extractAll_length E _ _ _ _ _ Hall) as Hlen.
  split.
  { unfold builtStatement. cbn [SQL].
    rewrite (valueQuery_replicate _ ms Hsizes), Hlen, Hsize. reflexivity. }
  split; [apply sortedKeys_Sorted|].
  split; [intros k; rewrite elem_of_sortedKeys, Hdom, Hcols; reflexivity|].
  split; [reflexivity|]. split; [exact Hlen|].
  eapply Forall_impl; [exact Hdoms|]. intros m Hm. simpl in Hm.
  split; [exact Hm|]. apply rowVars_shared_order. congruence.
Qed.

Lemma same_columns_batch_is_aligned_witness :
  exists stmt,
    insertObjSet backtick (mkWorld 0 []) [contactByMail; contactByMail] false []
    = (None, mkWorld 0 [stmt])
    /\ SQL stmt = "INSERT INTO `contact` (email, name) VALUES (?, ?), (?, ?)".
Proof.
  destruct (same_columns_batch_is_aligned backtick (mkWorld 0 []) contactByMail
              [contactByMail] false [] {["email"; "name"]})
    as (firstAttrs & t1 & ms & t2 & stmt & Hfirst & Hall & Hrun & Htext & _).
  - repeat constructor; eexists _, _; (split; [reflexivity|]); vm_compute; reflexivity.
  - exists stmt. cbn [ticks] in Hfirst.
    assert (Ht2 : t2 = 0).
    { assert (H : snd (extractAll backtick [contactByMail; contactByMail] []
                         (snd (extractMapValue backtick contactByMail [] 0))) = 0)
        by (vm_compute; reflexivity).
      rewrite Hfirst in H. cbn [snd] in H. rewrite Hall in H. exact H. }
    subst t2. split; [exact Hrun|].
    rewrite Htext.
    assert (Hf : fst (extractMapValue backtick contactByMail [] 0)
                 = Ok (attrsOf contactByMail)) by (vm_compute; reflexivity).
    rewrite Hfirst in Hf. injection Hf as ->. vm_compute. reflexivity.
Defined.

End bulk_insert_extra.
